(** * PromptBuilder: prompt segmentation and token substitution

    A shallow embedding of the string engine of
    [src/components/PromptBuilder.tsx]: [segmentPrompt],
    [buildRawFromSegments], [replaceToken], [extractFallbackTokens],
    [getDefaultAlternatives] and [inferRole], together with the part of the
    JavaScript runtime they rest on (strings as sequences of UTF-16 code
    units, [Array.prototype.sort], [Map], and the regular expressions the
    file builds).

    The source file holds two revisions of the component. [segmentPrompt],
    [escapeRegExp], [buildRawFromSegments] and [replaceToken] are the same
    in both; [extractFallbackTokens], [getDefaultAlternatives] and
    [inferRole] are embedded from the first one (lines 34 to 138). *)

From Stdlib Require Import NArith ZArith String Ascii DecimalString DecimalPos DecimalN.
From stdpp Require Import gmap list sorting.

Open Scope N_scope.

(** ** Strings

    A JavaScript string is a sequence of UTF-16 code units; [length],
    [slice], [repeat], [includes] and regular expressions without the [u]
    flag all work on code units. *)

Abbreviation jsstring := (list N).

(** [str] reads an ASCII literal as a JavaScript string. *)
Definition str (s : string) : jsstring :=
  (λ a, N_of_ascii a) <$> list_ascii_of_string s.

Arguments str s%_string.

(** [String.prototype.slice] with two and with one argument, for
    non-negative indices: indices past the end are clamped, and a start after
    the end gives the empty string. *)
Definition slice (s : jsstring) (from to : nat) : jsstring :=
  take (to - from)%nat (drop from s).

Definition slice_from (s : jsstring) (from : nat) : jsstring := drop from s.

(** [String.prototype.repeat] on a one-unit string. *)
Definition repeat1 (c : N) (n : nat) : jsstring := replicate n c.

(** [String.prototype.includes]. *)
Fixpoint starts_with (needle s : jsstring) : bool :=
  match needle, s with
  | [], _ => true
  | _ :: _, [] => false
  | a :: needle', b :: s' => (a =? b) && starts_with needle' s'
  end.

Fixpoint includes (s needle : jsstring) : bool :=
  starts_with needle s ||
  match s with
  | [] => false
  | _ :: s' => includes s' needle
  end.

(** ** Character classes of the regular expression engine *)

(** [\w] without the [u] flag: [A-Za-z0-9_]. *)
Definition is_word_char (c : N) : bool :=
  ((48 <=? c) && (c <=? 57)) || ((65 <=? c) && (c <=? 90))
  || (c =? 95) || ((97 <=? c) && (c <=? 122)).

(** [\s]: white space and line terminators. *)
Definition is_white_space (c : N) : bool :=
  ((9 <=? c) && (c <=? 13)) || (c =? 32) || (c =? 160) || (c =? 5760)
  || ((8192 <=? c) && (c <=? 8202)) || (c =? 8232) || (c =? 8233)
  || (c =? 8239) || (c =? 8287) || (c =? 12288) || (c =? 65279).

Definition ascii_upper (c : N) : N :=
  if (97 <=? c) && (c <=? 122) then c - 32 else c.

Definition ascii_lower (c : N) : N :=
  if (65 <=? c) && (c <=? 90) then c + 32 else c.

Definition is_ascii (c : N) : bool := c <? 128.

(** The case tables of the runtime beyond ASCII. [toUppercase] is the
    Unicode uppercase mapping of one code unit (a string of code units),
    [toLowerCase_unicode] is [String.prototype.toLowerCase] on a string that
    has a code unit outside ASCII. Nothing is assumed about them. *)
Class Unicode := {
  toUppercase : N → jsstring;
  toLowerCase_unicode : jsstring → jsstring
}.

(** A runtime whose tables map every non-ASCII code unit to itself. *)
Definition plain_unicode : Unicode :=
  {| toUppercase := λ c, [c]; toLowerCase_unicode := λ s, s |}.

(** ** Regular expressions

    The patterns of the source use literal characters, [\s+], [\b] and a
    top-level (or once-grouped) disjunction. A pattern is a list of
    alternatives, tried in order at each start position; an alternative is a
    sequence of atoms. Literals are compared through [Canonicalize]: every
    pattern of the source carries the [i] flag. *)

Inductive Atom :=
  | Chr (c : N)
  | Spaces
  | WordBoundary.

Abbreviation Alternative := (list Atom).
Abbreviation Pattern := (list (list Atom)).

Section Runtime.
Context {U : Unicode}.

(** [Canonicalize] of the [i] flag without the [u] flag: the uppercase
    mapping when it is a single code unit, except that a code unit from 128
    on never folds into ASCII. Below 128 the uppercase mapping is the ASCII
    one. *)
Definition Canonicalize (ch : N) : N :=
  if ch <? 128 then ascii_upper ch
  else match toUppercase ch with
       | [cu] => if cu <? 128 then ch else cu
       | _ => ch
       end.

Definition ci_eq (a b : N) : bool := Canonicalize a =? Canonicalize b.

(** [String.prototype.toLowerCase]. *)
Definition toLowerCase (s : jsstring) : jsstring :=
  if forallb is_ascii s then ascii_lower <$> s else toLowerCase_unicode s.

(** ** The matcher *)

Definition head_is_word (s : jsstring) : bool :=
  match s with
  | c :: _ => is_word_char c
  | [] => false
  end.

(** [matchAtoms atoms prev s] matches [atoms] at the front of [s], where
    [prev] tells whether the code unit before [s] is a word character, and
    returns the number of code units consumed. [\s+] is greedy and gives
    back one unit at a time. *)
Fixpoint matchAtoms (atoms : Alternative) (prev : bool) (s : jsstring) : option nat :=
  match atoms with
  | [] => Some 0%nat
  | Chr c :: rest =>
      match s with
      | x :: s' => if ci_eq c x then S <$> matchAtoms rest (is_word_char x) s' else None
      | [] => None
      end
  | WordBoundary :: rest =>
      if xorb prev (head_is_word s) then matchAtoms rest prev s else None
  | Spaces :: rest =>
      (fix spaces (s : jsstring) : option nat :=
         match s with
         | x :: s' =>
             if is_white_space x then
               match spaces s' with
               | Some n => Some (S n)
               | None => S <$> matchAtoms rest (is_word_char x) s'
               end
             else None
         | [] => None
         end) s
  end.

Fixpoint matchPattern (p : Pattern) (prev : bool) (s : jsstring) : option nat :=
  match p with
  | [] => None
  | alt :: p' =>
      match matchAtoms alt prev s with
      | Some n => Some n
      | None => matchPattern p' prev s
      end
  end.

(** The search loop of [RegExpBuiltinExec]: try the pattern at position [i]
    (the front of [s]), then at [i + 1], up to and including the end of the
    input. The result is the match index and the end index. *)
Fixpoint searchFrom (p : Pattern) (prev : bool) (s : jsstring) (i : nat) : option (nat * nat) :=
  match matchPattern p prev s with
  | Some n => Some (i, (i + n)%nat)
  | None =>
      match s with
      | [] => None
      | c :: s' => searchFrom p (is_word_char c) s' (S i)
      end
  end.

Definition word_before (input : jsstring) (i : nat) : bool :=
  match i with
  | O => false
  | S j => match input !! j with Some c => is_word_char c | None => false end
  end.

Definition RegExpBuiltinExec (p : Pattern) (lastIndex : nat) (input : jsstring) : option (nat * nat) :=
  if (length input <? lastIndex)%nat then None
  else searchFrom p (word_before input lastIndex) (drop lastIndex input) lastIndex.

(** [exec] and [test] of a regular expression without the [g] flag start at
    index 0 and keep no state. *)
Definition RegExp_exec (p : Pattern) (input : jsstring) : option (nat * nat) :=
  RegExpBuiltinExec p 0 input.

Definition RegExp_test (p : Pattern) (input : jsstring) : bool :=
  bool_decide (is_Some (RegExp_exec p input)).

(** [test] of a regular expression with the [g] flag starts at its
    [lastIndex] and stores the end of the match there, or 0 when there is no
    match. The result is the answer and the new [lastIndex]. *)
Definition RegExp_test_global (p : Pattern) (lastIndex : nat) (input : jsstring) : bool * nat :=
  match RegExpBuiltinExec p lastIndex input with
  | Some (_, e) => (true, e)
  | None => (false, 0%nat)
  end.

End Runtime.

Close Scope N_scope.

(** ** Data model *)

Inductive TokenRole := descriptor | quality | mood | action.

(** The value of a token's [alts] field. [getDefaultAlternatives] reads
    [altMap[key]] on an object literal, so besides an array of strings it can
    return a property inherited from [Object.prototype]. *)
Inductive AltsValue :=
  | AltsArray (items : list jsstring)
  | AltsInherited (key : jsstring).

Record Token := {
  id : jsstring;
  text : jsstring;
  role : TokenRole;
  alts : AltsValue
}.

Record PromptDoc := {
  raw : jsstring;
  tokens : list Token
}.

Inductive Segment :=
  | SegText (value : jsstring)
  | SegToken (tokenId : jsstring).

Record Placement := {
  start : nat;
  end_ : nat;
  tokenId : jsstring
}.

(** The character written over a claimed range: U+2588. *)
Definition filler : N := 9608%N.

(** ** [Array.prototype.sort]

    The sort is stable, so for a comparator that orders by a key its result
    is the one ordering that is sorted and keeps equal elements in their
    original order. [Array_sort] builds it by insertion from the right: an
    element passes exactly the elements that compare strictly before it. *)
Fixpoint insertBy {A} (cmp : A → A → Z) (x : A) (l : list A) : list A :=
  match l with
  | [] => [x]
  | y :: l' => if (0 <? cmp x y)%Z then y :: insertBy cmp x l' else x :: l
  end.

Definition Array_sort {A} (cmp : A → A → Z) (l : list A) : list A :=
  foldr (insertBy cmp) [] l.

(** [new Map(entries)]: a later entry for a key replaces an earlier one. *)
Definition tokenMapOf (ts : list Token) : gmap jsstring Token :=
  foldl (λ m t, <[id t := t]> m) ∅ ts.

Section Segmentation.
Context {U : Unicode}.

(** [new RegExp(`\\b${escapeRegExp(token.text)}\\b`, "i")]: [escapeRegExp]
    puts a backslash before each syntax character, so the source between the
    two [\b] denotes the code units of the text, one literal each. *)
Definition tokenPattern (txt : jsstring) : Pattern :=
  [[WordBoundary] ++ (Chr <$> txt) ++ [WordBoundary]].

(** One round of the loop over the sorted tokens. *)
Definition placeToken (st : jsstring * list Placement) (token : Token)
  : jsstring * list Placement :=
  let '(working, placements) := st in
  match RegExp_exec (tokenPattern (text token)) working with
  | Some (start, end_) =>
      (slice working 0 start ++ repeat1 filler (end_ - start) ++ slice_from working end_,
       placements ++ [{| start := start; end_ := end_; tokenId := id token |}])
  | None => st
  end.

Definition sortTokens (ts : list Token) : list Token :=
  Array_sort (λ a b, Z.of_nat (length (text b)) - Z.of_nat (length (text a)))%Z ts.

Definition sortPlacements (ps : list Placement) : list Placement :=
  Array_sort (λ a b, Z.of_nat (start a) - Z.of_nat (start b))%Z ps.

(** The placements as pushed by the first loop. *)
Definition recordPlacements (raw : jsstring) (ts : list Token) : list Placement :=
  snd (foldl placeToken (raw, []) (sortTokens ts)).

(** One round of the loop over the sorted placements. *)
Definition emitPlacement (raw : jsstring) (st : list Segment * nat) (p : Placement)
  : list Segment * nat :=
  let '(segments, currentIndex) := st in
  let segments :=
    if (currentIndex <? start p)%nat
    then segments ++ [SegText (slice raw currentIndex (start p))]
    else segments in
  (segments ++ [SegToken (tokenId p)], end_ p).

Definition segmentPrompt (raw : jsstring) (ts : list Token) : list Segment :=
  match raw with
  | [] => []
  | _ :: _ =>
      match ts with
      | [] => [SegText raw]
      | _ :: _ =>
          let placements := sortPlacements (recordPlacements raw ts) in
          let '(segments, currentIndex) := foldl (emitPlacement raw) ([], 0%nat) placements in
          let segments :=
            if (currentIndex <? length raw)%nat
            then segments ++ [SegText (slice_from raw currentIndex)]
            else segments in
          match segments with
          | [] => [SegText raw]
          | _ :: _ => segments
          end
      end
  end.

End Segmentation.

Definition resolveSegment (tokenMap : gmap jsstring Token) (segment : Segment) : jsstring :=
  match segment with
  | SegText value => value
  | SegToken tokenId =>
      match tokenMap !! tokenId with
      | Some token => text token
      | None => []
      end
  end.

Definition buildRawFromSegments (segments : list Segment) (tokenMap : gmap jsstring Token)
  : jsstring :=
  concat (resolveSegment tokenMap <$> segments).

(** ** The component state and [replaceToken] *)

Record AppState := {
  promptDoc : option PromptDoc;
  segments : list Segment;
  openTokenId : option jsstring
}.

Definition setText (newText : jsstring) (token : Token) : Token :=
  {| id := id token; text := newText; role := role token; alts := alts token |}.

(** [token => token.id === tokenId ? { ...token, text: newText } : token] *)
Definition updateToken (tokenId newText : jsstring) (token : Token) : Token :=
  if decide (id token = tokenId) then setText newText token else token.

Definition replaceToken (st : AppState) (tokenId newText : jsstring) : AppState :=
  match promptDoc st with
  | None => st
  | Some doc =>
      let updatedTokens := updateToken tokenId newText <$> tokens doc in
      let updatedTokenMap := tokenMapOf updatedTokens in
      let updatedRaw := buildRawFromSegments (segments st) updatedTokenMap in
      {| promptDoc := Some {| raw := updatedRaw; tokens := updatedTokens |};
         segments := segments st;
         openTokenId := None |}
  end.

(** ** Role inference and the fallback extractor *)

Definition lit (s : string) : Alternative := Chr <$> str s.

(** [spaced ["high"; "quality"]] is the alternative [high\s+quality]. *)
Fixpoint spaced (ws : list string) : Alternative :=
  match ws with
  | [] => []
  | [w] => lit w
  | w :: ws' => lit w ++ Spaces :: spaced ws'
  end.

(** [\b(w1|w2|...)\b]: the group is tried alternative by alternative between
    the two boundaries. *)
Definition bounded (ws : list string) : Pattern :=
  (λ w, [WordBoundary] ++ lit w ++ [WordBoundary]) <$> ws.

Definition KEYWORD_ROLE : list (Pattern * TokenRole) :=
  [ (spaced <$> [["high"; "quality"]; ["8k"]; ["ultra"; "detail"]; ["studio"; "lighting"];
                 ["volumetric"]; ["rim"; "light"]; ["softbox"]; ["hard"; "light"];
                 ["backlit"]; ["bokeh"]]%string,
     quality);
    (spaced <$> [["chiaroscuro"]; ["cinematic"]; ["cool"; "tones"]; ["warm"; "tones"];
                 ["neon"]; ["pastel"]; ["monochrome"]; ["earthy"]; ["desaturated"];
                 ["moody"]; ["vibrant"]]%string,
     mood);
    (spaced <$> [["carved"]; ["woven"]; ["forged"]; ["grown"]; ["assembled"]; ["whittled"];
                 ["sculpted"]; ["panning"]; ["tilt"]; ["dolly"]; ["zoom"]; ["tracking"];
                 ["orbiting"]]%string,
     action);
    (spaced <$> [["dress"]; ["gown"]; ["armor"]; ["cat"]; ["city"]; ["forest"]; ["portrait"];
                 ["mountain"]; ["desert"]; ["robot"]; ["mask"]; ["character"]; ["creature"];
                 ["temple"]; ["street"]]%string,
     descriptor) ].

Definition suffix_words : Pattern := bounded ["ly"; "ic"; "ous"; "ful"; "ish"; "ive"]%string.
Definition quality_words : Pattern :=
  lit <$> ["light"; "tone"; "quality"; "detail"]%string.
Definition action_words : Pattern :=
  bounded ["run"; "fly"; "carved"; "forged"; "grown"; "shoot"; "tilt"; "pan"; "zoom";
           "orbit"; "track"; "hold"]%string.
Definition mood_words : Pattern :=
  bounded ["moody"; "warm"; "cool"; "neon"; "pastel"; "earthy"; "grim"; "bright"; "soft";
           "harsh"]%string.

(** The module-level mutable state: the id counter, and the [lastIndex] of
    each regular expression of [KEYWORD_ROLE], which carry the [g] flag and
    are created once. *)
Record Globals := {
  idCounter : N;
  keywordLastIndex : list nat
}.

Definition initialGlobals : Globals :=
  {| idCounter := 0%N; keywordLastIndex := [0; 0; 0; 0] |}.

Definition decimal (n : N) : jsstring := str (NilZero.string_of_uint (N.to_uint n)).

Definition commonTerms : list jsstring :=
  str <$> ["high quality"; "ultra detailed"; "studio lighting"; "cinematic";
           "dramatic"; "portrait"; "landscape"; "detailed"; "realistic";
           "professional"; "artistic"; "beautiful"; "stunning"; "masterpiece"]%string.

Definition stopWords : list jsstring :=
  str <$> ["with"; "from"; "that"; "this"; "they"; "have"; "will"; "been"; "were"]%string.

Definition altMap : list (jsstring * list jsstring) :=
  (λ e : string * list string, (str e.1, str <$> e.2)) <$>
  [ ("high quality", ["premium"; "photoreal"; "film-grade"; "clean"; "polished"; "pristine"]);
    ("ultra detailed", ["intricate"; "highly detailed"; "fine detail"; "micro-detail"; "ornate"; "textured"]);
    ("studio lighting", ["natural light"; "softbox"; "rim light"; "backlit"; "hard light"; "volumetric"]);
    ("cinematic", ["filmic"; "dramatic"; "epic"; "documentary"; "stylized"; "artistic"]);
    ("dramatic", ["subtle"; "intense"; "moody"; "striking"; "bold"; "understated"]);
    ("portrait", ["headshot"; "close-up"; "bust"; "profile"; "three-quarter"; "candid"]);
    ("landscape", ["scenery"; "vista"; "panorama"; "terrain"; "countryside"; "seascape"]);
    ("detailed", ["intricate"; "elaborate"; "thorough"; "precise"; "meticulous"; "refined"]);
    ("realistic", ["lifelike"; "natural"; "authentic"; "true-to-life"; "photographic"; "believable"]);
    ("professional", ["expert"; "polished"; "commercial"; "studio-quality"; "refined"; "masterful"]);
    ("artistic", ["creative"; "expressive"; "stylized"; "aesthetic"; "imaginative"; "inspired"]);
    ("beautiful", ["stunning"; "gorgeous"; "elegant"; "graceful"; "lovely"; "attractive"]);
    ("stunning", ["breathtaking"; "magnificent"; "spectacular"; "impressive"; "striking"; "remarkable"]);
    ("masterpiece", ["work of art"; "tour de force"; "magnum opus"; "classic"; "exemplary"; "outstanding"])
  ]%string.

Definition defaultAlternatives : list jsstring :=
  str <$> ["enhanced"; "improved"; "refined"; "elevated"; "sophisticated"; "polished"]%string.

(** The properties every object literal inherits from [Object.prototype];
    their values are functions or objects, so they count as true in [||]. *)
Definition objectPrototypeKeys : list jsstring :=
  str <$> ["constructor"; "__proto__"; "hasOwnProperty"; "isPrototypeOf";
           "propertyIsEnumerable"; "toLocaleString"; "toString"; "valueOf";
           "__defineGetter__"; "__defineSetter__"; "__lookupGetter__";
           "__lookupSetter__"]%string.

Fixpoint ownProperty {A} (entries : list (jsstring * A)) (key : jsstring) : option A :=
  match entries with
  | [] => None
  | (k, v) :: entries' => if decide (k = key) then Some v else ownProperty entries' key
  end.

(** [prompt.split(/\s+/)]: the pieces between maximal runs of white space,
    with an empty piece where the string starts or ends with white space.
    [inSep] tells that the previous code unit was white space, [cur] is the
    piece being read. *)
Fixpoint splitWhiteSpace (inSep : bool) (cur s : jsstring) : list jsstring :=
  match s with
  | [] => [cur]
  | c :: s' =>
      if is_white_space c then
        if inSep then splitWhiteSpace true cur s'
        else cur :: splitWhiteSpace true [] s'
      else splitWhiteSpace false (cur ++ [c]) s'
  end.

Section Fallback.
Context {U : Unicode}.

(** [Date_now n] is the reading of [Date.now()] when the id with counter
    value [n] is made. *)
Variable Date_now : N → N.

Definition uid (g : Globals) : jsstring * Globals :=
  let n := (idCounter g + 1)%N in
  (str "token-" ++ decimal (Date_now n) ++ str "-" ++ decimal n,
   {| idCounter := n; keywordLastIndex := keywordLastIndex g |}).

(** The loop of [inferRole] over [KEYWORD_ROLE]: [pattern.test(text)] on
    each rule in turn, returning at the first success. Each test reads and
    writes the [lastIndex] of its rule. *)
Fixpoint testKeywordRoles (rules : list (Pattern * TokenRole)) (lastIndexes : list nat)
    (txt : jsstring) : option TokenRole * list nat :=
  match rules, lastIndexes with
  | (pattern, r) :: rules', lastIndex :: rest =>
      match RegExp_test_global pattern lastIndex txt with
      | (true, lastIndex') => (Some r, lastIndex' :: rest)
      | (false, lastIndex') =>
          let '(found, rest') := testKeywordRoles rules' rest txt in
          (found, lastIndex' :: rest')
      end
  | _, _ => (None, lastIndexes)
  end.

Definition inferRole (g : Globals) (txt : jsstring) : TokenRole * Globals :=
  let '(found, lastIndexes) := testKeywordRoles KEYWORD_ROLE (keywordLastIndex g) txt in
  let g' := {| idCounter := idCounter g; keywordLastIndex := lastIndexes |} in
  match found with
  | Some r => (r, g')
  | None =>
      if RegExp_test suffix_words txt || RegExp_test quality_words txt then (quality, g')
      else if RegExp_test action_words txt then (action, g')
      else if RegExp_test mood_words txt then (mood, g')
      else (descriptor, g')
  end.

Definition getDefaultAlternatives (term : jsstring) : AltsValue :=
  let key := toLowerCase term in
  match ownProperty altMap key with
  | Some items => AltsArray items
  | None =>
      if bool_decide (key ∈ objectPrototypeKeys) then AltsInherited key
      else AltsArray defaultAlternatives
  end.

(** [foundTokens.push({ id: uid(), text, role: inferRole(text), alts:
    getDefaultAlternatives(text) })]: the fields are evaluated in order. *)
Definition pushToken (st : list Token * Globals) (txt : jsstring) : list Token * Globals :=
  let '(foundTokens, g) := st in
  let '(i, g) := uid g in
  let '(r, g) := inferRole g txt in
  (foundTokens ++ [{| id := i; text := txt; role := r; alts := getDefaultAlternatives txt |}], g).

Definition significant (word : jsstring) : bool :=
  (4 <? length word) && negb (bool_decide (word ∈ stopWords)).

Definition extractFallbackTokens (g : Globals) (prompt : jsstring) : list Token * Globals :=
  let words := splitWhiteSpace false [] (toLowerCase prompt) in
  let st :=
    foldl (λ st term, if includes (toLowerCase prompt) term then pushToken st term else st)
          ([], g) commonTerms in
  let significantWords := take 6 (filter (λ w, significant w = true) words) in
  let '(foundTokens, g) :=
    foldl (λ st word,
             if negb (existsb (λ token, includes (toLowerCase (text token)) word) st.1)
             then pushToken st word else st)
          st significantWords in
  (take 8 foundTokens, g).

End Fallback.

(** ** The fallback extractor of the later revision

    The second revision in the source file (lines 1048 to 1252) has twelve
    roles, takes the role of a vocabulary term from its category, and calls
    [inferRole] only on the significant words. *)

Module Revision2.

Inductive TokenRole :=
  | genre | subject | attributes | action | setting | composition
  | perspective | lighting | color | style | mood | quality.

Record Token := {
  id : jsstring;
  text : jsstring;
  role : TokenRole;
  alts : AltsValue
}.

Definition categoryTerms : list (TokenRole * list jsstring) :=
  (λ e : TokenRole * list string, (e.1, str <$> e.2)) <$>
  [ (genre, ["portrait"; "landscape"; "character"; "product"; "narrative"; "scene";
             "architecture"; "photographic"]);
    (subject, ["person"; "man"; "woman"; "child"; "cat"; "dog"; "car"; "building"; "tree";
               "mountain"; "persian"; "fluffy"]);
    (attributes, ["young"; "old"; "tall"; "short"; "beautiful"; "elegant"; "rugged"; "sleek";
                  "modern"; "vintage"; "intense"]);
    (action, ["running"; "jumping"; "sitting"; "standing"; "smiling"; "crying"; "dancing";
              "flying"; "pose"; "expression"]);
    (setting, ["forest"; "city"; "beach"; "studio"; "office"; "home"; "park"; "street";
               "room"; "outdoor"; "indoor"]);
    (composition, ["close-up"; "wide shot"; "rule of thirds"; "centered"; "framing"; "depth";
                   "leading lines"; "symmetry"]);
    (perspective, ["50mm"; "85mm"; "wide angle"; "telephoto"; "macro"; "fisheye"; "aerial";
                   "ground level"; "lens"]);
    (lighting, ["golden hour"; "soft light"; "harsh light"; "rim light"; "backlit";
                "studio lighting"; "natural light"; "dramatic"]);
    (color, ["warm tones"; "cool tones"; "vibrant"; "muted"; "monochrome"; "pastel"; "neon";
             "earthy"]);
    (style, ["oil painting"; "photography"; "digital art"; "watercolor"; "pencil";
             "3D render"; "CGI"; "hyperrealistic"]);
    (mood, ["dramatic"; "peaceful"; "energetic"; "melancholy"; "joyful"; "mysterious";
            "romantic"; "melancholic"]);
    (quality, ["high quality"; "8k"; "ultra detailed"; "sharp focus"; "highly detailed";
               "masterpiece"; "intricate"; "photorealistic"])
  ]%string.

Definition stopWords : list jsstring :=
  str <$> ["with"; "from"; "that"; "this"; "they"; "have"; "will"; "been"; "were";
           "very"; "much"; "more"]%string.

Definition categoryAlts (r : TokenRole) : list jsstring :=
  str <$>
  match r with
  | genre => ["portrait"; "landscape"; "character"; "product"; "narrative"; "scene"]
  | subject => ["person"; "figure"; "character"; "individual"; "model"; "subject"]
  | attributes => ["elegant"; "modern"; "vintage"; "sleek"; "rugged"; "refined"]
  | action => ["posing"; "moving"; "gesturing"; "expressing"; "performing"; "demonstrating"]
  | setting => ["studio"; "outdoor"; "indoor"; "natural"; "urban"; "architectural"]
  | composition => ["centered"; "off-center"; "rule of thirds"; "symmetrical"; "dynamic";
                    "balanced"]
  | perspective => ["wide angle"; "telephoto"; "macro"; "aerial"; "eye-level"; "low angle"]
  | lighting => ["soft light"; "hard light"; "natural light"; "studio light"; "ambient";
                 "directional"]
  | color => ["warm tones"; "cool tones"; "vibrant"; "muted"; "monochrome"; "saturated"]
  | style => ["photographic"; "artistic"; "cinematic"; "documentary"; "commercial"; "fine art"]
  | mood => ["dramatic"; "serene"; "energetic"; "mysterious"; "joyful"; "contemplative"]
  | quality => ["high detail"; "sharp focus"; "pristine"; "professional"; "masterful";
                "exceptional"]
  end%string.

Definition altMap : list (jsstring * list jsstring) :=
  (λ e : string * list string, (str e.1, str <$> e.2)) <$>
  [ ("high quality", ["premium"; "photoreal"; "film-grade"; "clean"; "polished"; "pristine"]);
    ("ultra detailed", ["intricate"; "highly detailed"; "fine detail"; "micro-detail"; "ornate"; "textured"]);
    ("photorealistic", ["lifelike"; "realistic"; "authentic"; "natural"; "true-to-life"; "believable"]);
    ("masterpiece", ["work of art"; "tour de force"; "magnum opus"; "classic"; "exemplary"; "outstanding"]);
    ("studio lighting", ["natural light"; "softbox"; "rim light"; "backlit"; "hard light"; "volumetric"]);
    ("dramatic", ["moody"; "intense"; "striking"; "bold"; "atmospheric"; "cinematic"]);
    ("golden hour", ["magic hour"; "sunset"; "sunrise"; "warm light"; "evening light"; "dusk"]);
    ("photographic", ["realistic"; "documentary"; "journalistic"; "candid"; "editorial"; "commercial"]);
    ("hyperrealistic", ["ultra-realistic"; "photoreal"; "lifelike"; "detailed"; "precise"; "accurate"]);
    ("close-up", ["tight shot"; "macro"; "detail shot"; "intimate"; "focused"; "cropped"]);
    ("wide shot", ["panoramic"; "landscape"; "establishing"; "full frame"; "expansive"; "broad"]);
    ("warm tones", ["golden"; "amber"; "sunset"; "cozy"; "inviting"; "soft"]);
    ("cool tones", ["blue"; "cyan"; "crisp"; "fresh"; "clinical"; "modern"]);
    ("persian", ["exotic"; "feline"; "elegant"; "fluffy"; "longhaired"; "majestic"]);
    ("fluffy", ["soft"; "furry"; "plush"; "downy"; "fuzzy"; "voluminous"]);
    ("intense", ["piercing"; "focused"; "sharp"; "penetrating"; "compelling"; "captivating"])
  ]%string.

(** The rules of this revision spell their phrases with a plain space. *)
Definition KEYWORD_ROLE : list (Pattern * TokenRole) :=
  [ (lit <$> ["portrait"; "landscape"; "character"; "product"; "narrative"; "scene";
              "architecture"; "photographic"; "street"; "documentary"]%string, genre);
    (lit <$> ["person"; "man"; "woman"; "child"; "cat"; "dog"; "car"; "building"; "tree";
              "mountain"; "ocean"; "persian"; "individual"; "figure"; "model"]%string, subject);
    (lit <$> ["young"; "old"; "tall"; "short"; "beautiful"; "elegant"; "rugged"; "sleek";
              "modern"; "vintage"; "intense"; "fluffy"; "majestic"; "exotic"]%string,
     attributes);
    (lit <$> ["running"; "jumping"; "sitting"; "standing"; "smiling"; "crying"; "dancing";
              "flying"; "posing"; "gesturing"; "expression"; "gaze"]%string, action);
    (lit <$> ["forest"; "city"; "beach"; "studio"; "office"; "home"; "park"; "street";
              "room"; "outdoor"; "indoor"; "urban"; "natural"; "environment"]%string, setting);
    (lit <$> ["close-up"; "wide shot"; "rule of thirds"; "centered"; "framing"; "depth";
              "leading lines"; "symmetry"; "balance"; "composition"]%string, composition);
    (lit <$> ["50mm"; "85mm"; "wide angle"; "telephoto"; "macro"; "fisheye"; "aerial";
              "ground level"; "lens"; "perspective"; "viewpoint"; "angle"]%string,
     perspective);
    (lit <$> ["golden hour"; "soft light"; "harsh light"; "rim light"; "backlit";
              "studio lighting"; "natural light"; "dramatic"; "chiaroscuro"; "ambient"]%string,
     lighting);
    (lit <$> ["warm tones"; "cool tones"; "vibrant"; "muted"; "monochrome"; "pastel"; "neon";
              "earthy"; "palette"; "color"; "hue"; "saturation"]%string, color);
    (lit <$> ["oil painting"; "photography"; "digital art"; "watercolor"; "pencil";
              "3D render"; "CGI"; "hyperrealistic"; "photorealistic"; "artistic"]%string,
     style);
    (lit <$> ["dramatic"; "peaceful"; "energetic"; "melancholy"; "joyful"; "mysterious";
              "romantic"; "serene"; "moody"; "contemplative"; "melancholic"]%string, mood);
    (lit <$> ["high quality"; "8k"; "ultra detail"; "sharp focus"; "highly detailed";
              "masterpiece"; "intricate"; "pristine"; "professional"; "premium"]%string,
     quality) ].

Definition quality_words : Pattern :=
  lit <$> ["quality"; "detail"; "sharp"; "crisp"]%string.
Definition action_words : Pattern :=
  bounded ["run"; "fly"; "jump"; "sit"; "stand"; "dance"; "move"]%string.
Definition mood_words : Pattern :=
  bounded ["mood"; "feel"; "atmosphere"; "vibe"; "emotion"]%string.
Definition style_words : Pattern :=
  bounded ["style"; "medium"; "art"; "paint"; "photo"]%string.

Definition initialGlobals : Globals :=
  {| idCounter := 0%N; keywordLastIndex := replicate 12 0 |}.

Section Fallback.
Context {U : Unicode}.
Variable Date_now : N → N.

Fixpoint testKeywordRoles (rules : list (Pattern * TokenRole)) (lastIndexes : list nat)
    (txt : jsstring) : option TokenRole * list nat :=
  match rules, lastIndexes with
  | (pattern, r) :: rules', lastIndex :: rest =>
      match RegExp_test_global pattern lastIndex txt with
      | (true, lastIndex') => (Some r, lastIndex' :: rest)
      | (false, lastIndex') =>
          let '(found, rest') := testKeywordRoles rules' rest txt in
          (found, lastIndex' :: rest')
      end
  | _, _ => (None, lastIndexes)
  end.

Definition inferRole (g : Globals) (txt : jsstring) : TokenRole * Globals :=
  let '(found, lastIndexes) := testKeywordRoles KEYWORD_ROLE (keywordLastIndex g) txt in
  let g' := {| idCounter := idCounter g; keywordLastIndex := lastIndexes |} in
  match found with
  | Some r => (r, g')
  | None =>
      if RegExp_test suffix_words txt || RegExp_test quality_words txt then (quality, g')
      else if RegExp_test action_words txt then (action, g')
      else if RegExp_test mood_words txt then (mood, g')
      else if RegExp_test style_words txt then (style, g')
      else (subject, g')
  end.

(** Both callers pass a role, so the lookup falls back on the alternatives
    of the role. *)
Definition getDefaultAlternatives (term : jsstring) (r : TokenRole) : AltsValue :=
  let key := toLowerCase term in
  match ownProperty altMap key with
  | Some items => AltsArray items
  | None =>
      if bool_decide (key ∈ objectPrototypeKeys) then AltsInherited key
      else AltsArray (categoryAlts r)
  end.

(** The vocabulary loop of one category. *)
Definition pushTerm (r : TokenRole) (fullPrompt : jsstring) (st : list Token * Globals)
    (term : jsstring) : list Token * Globals :=
  let '(foundTokens, g) := st in
  if includes fullPrompt term && negb (existsb (λ t, bool_decide (text t = term)) foundTokens)
  then
    let '(i, g) := uid Date_now g in
    (foundTokens ++ [{| id := i; text := term; role := r;
                        alts := getDefaultAlternatives term r |}], g)
  else st.

(** The loop over the significant words: the role is inferred before the
    id is made. *)
Definition pushWord (st : list Token * Globals) (word : jsstring) : list Token * Globals :=
  let '(foundTokens, g) := st in
  if negb (existsb (λ token, includes (toLowerCase (text token)) word) foundTokens)
     && (length foundTokens <? 12)
  then
    let '(r, g) := inferRole g word in
    let '(i, g) := uid Date_now g in
    (foundTokens ++ [{| id := i; text := word; role := r;
                        alts := getDefaultAlternatives word r |}], g)
  else st.

Definition significant (word : jsstring) : bool :=
  (3 <? length word) && negb (bool_decide (word ∈ stopWords)).

Definition extractFallbackTokens (g : Globals) (prompt : jsstring) : list Token * Globals :=
  let words := splitWhiteSpace false [] (toLowerCase prompt) in
  let fullPrompt := toLowerCase prompt in
  let st :=
    foldl (λ st entry, foldl (pushTerm entry.1 fullPrompt) st entry.2) ([], g) categoryTerms in
  let significantWords := filter (λ w, significant w = true) words in
  let '(foundTokens, g) := foldl pushWord st significantWords in
  (take 15 foundTokens, g).

End Fallback.

End Revision2.

(** ** Specification vocabulary *)

Section Vocabulary.
Context {U : Unicode}.

(** [ci_match txt s]: [s] is [txt] up to case, code unit by code unit. *)
Fixpoint ci_match (txt s : jsstring) : bool :=
  match txt, s with
  | [], [] => true
  | c :: txt', x :: s' => ci_eq c x && ci_match txt' s'
  | _, _ => false
  end.

Definition word_at (w : jsstring) (i : nat) : bool :=
  match w !! i with
  | Some c => is_word_char c
  | None => false
  end.

(** Position [i] of [w] is a word boundary. *)
Definition boundary (w : jsstring) (i : nat) : bool :=
  xorb (word_before w i) (word_at w i).

(** [txt] occurs in [w] at index [a], word-bounded and up to case. *)
Definition occurs_at (txt w : jsstring) (a : nat) : bool :=
  boundary w a && ci_match txt (slice w a (a + length txt))
  && boundary w (a + length txt).

Definition occurs (txt w : jsstring) : bool :=
  existsb (occurs_at txt w) (seq 0 (S (length w))).

(** No code unit of the token's text matches the filler character. *)
Definition filler_free (t : Token) : bool :=
  forallb (λ c, negb (ci_eq c filler)) (text t).

Definition all_filler_free (ts : list Token) : bool := forallb filler_free ts.

(** What the matcher does on a token pattern, position by position: the
    literal part followed by the closing boundary, and the whole pattern. *)
Fixpoint literal_at (txt s : jsstring) (prev : bool) : bool :=
  match txt with
  | [] => xorb prev (head_is_word s)
  | c :: txt' =>
      match s with
      | x :: s' => ci_eq c x && literal_at txt' s' (is_word_char x)
      | [] => false
      end
  end.

Definition token_at (txt s : jsstring) (prev : bool) : bool :=
  xorb prev (head_is_word s) && literal_at txt s prev.

End Vocabulary.

(** The segments emitted from cursor [cur] on, as a recursive function. *)
Fixpoint emitFrom (raw : jsstring) (cur : nat) (pls : list Placement) : list Segment :=
  match pls with
  | [] => if (cur <? length raw)%nat then [SegText (slice_from raw cur)] else []
  | p :: pls' =>
      (if (cur <? start p)%nat then [SegText (slice raw cur (start p))] else [])
      ++ SegToken (tokenId p) :: emitFrom raw (end_ p) pls'
  end.

(** The source ranges of those segments. *)
Fixpoint spansFrom (len cur : nat) (pls : list Placement) : list (nat * nat) :=
  match pls with
  | [] => if (cur <? len)%nat then [(cur, len)] else []
  | p :: pls' =>
      (if (cur <? start p)%nat then [(cur, start p)] else [])
      ++ (start p, end_ p) :: spansFrom len (end_ p) pls'
  end.

(** [tiles from to spans]: the ranges follow one another from [from] to
    [to], each starting where the previous one ends. *)
Fixpoint tiles (from to : nat) (spans : list (nat * nat)) : Prop :=
  match spans with
  | [] => from = to
  | (a, b) :: rest => a = from ∧ a ≤ b ∧ tiles b to rest
  end.

(** A segment covers a range of [raw]: a text segment is the slice of the
    range, a token segment stands on the range of a recorded placement of
    its token. *)
Definition covers (raw : jsstring) (pls : list Placement) (seg : Segment) (span : nat * nat)
  : Prop :=
  match seg with
  | SegText value => value = slice raw span.1 span.2
  | SegToken i =>
      ∃ p, p ∈ pls ∧ tokenId p = i ∧ start p = span.1 ∧ end_ p = span.2
  end.

Definition disjoint (p q : Placement) : Prop :=
  end_ p ≤ start q ∨ end_ q ≤ start p.

Definition tokenIds (segs : list Segment) : list jsstring :=
  omap (λ seg, match seg with SegToken i => Some i | SegText _ => None end) segs.

(** [ordered a b], for a placement [a] pushed before [b]: [a] lies before
    [b], or [b] lies before [a] and starts strictly earlier. *)
Definition ordered (a b : Placement) : Prop :=
  end_ a ≤ start b ∨ (end_ b ≤ start a ∧ start b < start a).

Definition chained (a b : Placement) : Prop := end_ a ≤ start b.

Section Invariant.
Context {U : Unicode}.

(** What the first loop maintains for a placement it has pushed: the range
    lies in [raw], is blanked in the working copy, and matched the text of
    the token it names. *)
Definition placed_ok (raw : jsstring) (all : list Token) (working : jsstring)
    (p : Placement) : Prop :=
  start p ≤ end_ p ≤ length raw
  ∧ (∀ k, start p ≤ k < end_ p → working !! k = Some filler)
  ∧ ∃ t, t ∈ all ∧ id t = tokenId p ∧ end_ p = start p + length (text t)
         ∧ ci_match (text t) (slice raw (start p) (end_ p)) = true.

(** The invariant of the first loop. *)
Record pass_inv (raw : jsstring) (all : list Token) (working : jsstring)
    (pls : list Placement) : Prop := {
  inv_length : length working = length raw;
  inv_working : ∀ k c, working !! k = Some c → c = filler ∨ raw !! k = Some c;
  inv_placed : Forall (placed_ok raw all working) pls;
  inv_ordered : ForallOrdPairs ordered pls
}.

End Invariant.

(** The raw text of a state's document is the rebuild of its segments. *)
Definition consistent (st : AppState) : Prop :=
  match promptDoc st with
  | None => True
  | Some doc => raw doc = buildRawFromSegments (segments st) (tokenMapOf (tokens doc))
  end.

(** What a fallback token holds besides its id and role. *)
Definition entry (t : Token) : jsstring * AltsValue := (text t, alts t).

(** ** Sample documents *)

(** The state [pickSuggestion] leaves for the prompt "A Cat" and the token
    "cat". *)
Definition mixedCaseTokens : list Token :=
  [{| id := str "t1"; text := str "cat"; role := descriptor; alts := AltsArray [] |}].

Definition mixedCaseState {U : Unicode} : AppState :=
  {| promptDoc := Some {| raw := str "A Cat"; tokens := mixedCaseTokens |};
     segments := segmentPrompt (str "A Cat") mixedCaseTokens;
     openTokenId := None |}.

(** Two tokens for the prompt "a-b", the second with the filler character
    as its text. *)
Definition fillerTokens : list Token :=
  [{| id := str "t1"; text := str "-"; role := descriptor; alts := AltsArray [] |};
   {| id := str "t2"; text := [filler]; role := descriptor; alts := AltsArray [] |}].

(** Two tokens that share an id, for the prompt "cat dog". *)
Definition sharedIdTokens : list Token :=
  [{| id := str "t1"; text := str "cat"; role := descriptor; alts := AltsArray [] |};
   {| id := str "t1"; text := str "dog"; role := descriptor; alts := AltsArray [] |}].

(** The scenario "a blue sky" with the token "blue", in a state whose [raw]
    is the rebuild of its segments. *)
Definition blueSkyTokens : list Token :=
  [{| id := str "t1"; text := str "blue"; role := descriptor;
      alts := AltsArray [str "azure"] |}].

Definition blueSkyState : AppState :=
  {| promptDoc := Some {| raw := str "a blue sky"; tokens := blueSkyTokens |};
     segments := [SegText (str "a "); SegToken (str "t1"); SegText (str " sky")];
     openTokenId := Some (str "t1") |}.

(** The tokens "cat" and "category" and the token "blue". *)
Definition catToken : Token :=
  {| id := str "t1"; text := str "cat"; role := descriptor; alts := AltsArray [] |}.

Definition categoryToken : Token :=
  {| id := str "t2"; text := str "category"; role := descriptor; alts := AltsArray [] |}.

Definition blueToken : Token :=
  {| id := str "t1"; text := str "blue"; role := descriptor;
     alts := AltsArray [str "azure"] |}.

(** A prompt for the fallback extractor and the tokens it gives on a fresh
    page. *)
Definition sailorPrompt : jsstring := str "A Dramatic portrait of a sailor".

Definition sailorTokens : list Token :=
  (extractFallbackTokens (U := plain_unicode) (λ _, 1700000000000%N)
     initialGlobals sailorPrompt).1.

(** ** [escapeRegExp] and the source of a token pattern *)

(** The class [[.*+?^${}()|[\]\\]] of [escapeRegExp]; these fourteen
    characters are also the syntax characters of the pattern grammar. *)
Definition isSyntaxCharacter (c : N) : bool :=
  bool_decide (c ∈ str ".*+?^${}()|[]\").

(** [string.replace(/[.*+?^${}()|[\]\\]/g, '\\$&')]: every character of the
    class is replaced by a backslash followed by itself. *)
Definition escapeRegExp (s : jsstring) : jsstring :=
  concat ((λ c, if isSyntaxCharacter c then [92%N; c] else [c]) <$> s).

(** The source string handed to [new RegExp] in [segmentPrompt]. *)
Definition tokenPatternSource (txt : jsstring) : jsstring :=
  str "\b" ++ escapeRegExp txt ++ str "\b".

(** The pattern grammar, without the [u] flag, on sources made of plain
    characters, [\b] and escaped syntax characters: a character that is not
    a syntax character stands for itself, a backslash followed by a syntax
    character stands for that character. Anything else (an operator, a class,
    another escape, a trailing backslash) is outside this fragment. *)
Fixpoint parseLiteralPattern (src : jsstring) : option Alternative :=
  match src with
  | [] => Some []
  | c :: rest =>
      if (c =? 92)%N then
        match rest with
        | [] => None
        | d :: rest' =>
            if (d =? 98)%N then (λ atoms, WordBoundary :: atoms) <$> parseLiteralPattern rest'
            else if isSyntaxCharacter d
                 then (λ atoms, Chr d :: atoms) <$> parseLiteralPattern rest'
                 else None
        end
      else if isSyntaxCharacter c then None
      else (λ atoms, Chr c :: atoms) <$> parseLiteralPattern rest
  end.

(** ** [String.prototype.trim] *)

Fixpoint trimStart (s : jsstring) : jsstring :=
  match s with
  | c :: s' => if is_white_space c then trimStart s' else s
  | [] => []
  end.

Definition trimEnd (s : jsstring) : jsstring := reverse (trimStart (reverse s)).

Definition trim (s : jsstring) : jsstring := trimEnd (trimStart s).

(** ** The API key form ([APIKeyInput])

    [apiKey] is the state of the parent, [stored] the entry
    ['google-api-key'] of [localStorage]; the other fields are the local
    state of the form. Writing to the storage is taken to succeed. *)

Record KeyForm := {
  apiKey : jsstring;
  stored : option jsstring;
  isEditing : bool;
  draft : jsstring;
  error : jsstring
}.

Definition validateApiKey (key : jsstring) : bool :=
  starts_with (str "AIza") key && (35 <=? length key).

Definition invalidKeyMessage : jsstring :=
  str "Invalid API key format. Google API keys should start with "
  ++ [34%N] ++ str "AIza" ++ [34%N].

Definition handleSave (f : KeyForm) : KeyForm :=
  match trim (draft f) with
  | [] => f
  | _ :: _ =>
      if negb (validateApiKey (trim (draft f)))
      then {| apiKey := apiKey f; stored := stored f; isEditing := isEditing f;
              draft := draft f; error := invalidKeyMessage |}
      else {| apiKey := trim (draft f); stored := Some (trim (draft f));
              isEditing := false; draft := []; error := [] |}
  end.

Definition handleClear (f : KeyForm) : KeyForm :=
  {| apiKey := []; stored := None; isEditing := true; draft := draft f; error := [] |}.

(** Typing into the input: [setDraft(e.target.value); setError('')]. *)
Definition handleChange (value : jsstring) (f : KeyForm) : KeyForm :=
  {| apiKey := apiKey f; stored := stored f; isEditing := isEditing f;
     draft := value; error := [] |}.

(** The Escape key and the Cancel button:
    [setIsEditing(false); setDraft(''); setError('')]. *)
Definition handleCancel (f : KeyForm) : KeyForm :=
  {| apiKey := apiKey f; stored := stored f; isEditing := false; draft := []; error := [] |}.

(** The Edit button: [setIsEditing(true)]. *)
Definition handleEdit (f : KeyForm) : KeyForm :=
  {| apiKey := apiKey f; stored := stored f; isEditing := true;
     draft := draft f; error := error f |}.

(** What the user can do with the form. Which controls are shown depends
    on [isEditing] and [apiKey]; the handlers are modelled as they are, so a
    sequence of actions may hold any of them in any order. *)
Inductive KeyAction :=
  | Type_ (value : jsstring)
  | Save
  | Cancel
  | Edit
  | Clear.

Definition keyStep (f : KeyForm) (a : KeyAction) : KeyForm :=
  match a with
  | Type_ value => handleChange value f
  | Save => handleSave f
  | Cancel => handleCancel f
  | Edit => handleEdit f
  | Clear => handleClear f
  end.

(** The form once the parent's mount effect has run: the parent reads the
    stored key and keeps it when it is a non-empty string. The form was
    first rendered with an empty key, so it starts in editing mode. *)
Definition mountKeyForm (saved : option jsstring) : KeyForm :=
  {| apiKey := match saved with Some (c :: k) => c :: k | _ => [] end;
     stored := saved; isEditing := true; draft := []; error := [] |}.


(** ** The mock provider ([MockLLM]) *)

Definition mockTerms : list jsstring :=
  str <$> ["high quality"; "ultra detailed"; "studio lighting"; "cinematic";
           "cool tones"; "chiaroscuro"; "softbox lighting"; "dramatic"; "portrait"]%string.

Definition mockAltMap : list (jsstring * list jsstring) :=
  (λ e : string * list string, (str e.1, str <$> e.2)) <$>
  [ ("high quality", ["premium"; "photoreal"; "film-grade"; "clean"; "polished"; "pristine"]);
    ("ultra detailed", ["intricate"; "highly detailed"; "fine detail"; "micro-detail"; "ornate"; "textured"]);
    ("studio lighting", ["natural light"; "softbox"; "rim light"; "backlit"; "hard light"; "volumetric"]);
    ("cinematic", ["filmic"; "dramatic"; "epic"; "documentary"; "stylized"; "handheld"]);
    ("cool tones", ["warm tones"; "pastel"; "neon"; "monochrome"; "earthy"; "muted"]);
    ("chiaroscuro", ["high contrast"; "low key"; "Rembrandt light"; "split lighting"; "soft contrast"; "flat light"]);
    ("softbox lighting", ["umbrella light"; "beauty dish"; "diffused light"; "bounce light"; "window light"; "ring light"]);
    ("dramatic", ["subtle"; "intense"; "moody"; "striking"; "bold"; "understated"]);
    ("portrait", ["landscape"; "close-up"; "wide shot"; "macro"; "aerial"; "street scene"])
  ]%string.

Definition mockVariants : list jsstring :=
  str <$> ["variant A"; "variant B"; "variant C"; "variant D"; "variant E";
           "variant F"]%string.

Definition syntheticTerms : list jsstring :=
  str <$> ["dramatic"; "vibrant"; "elegant"; "mysterious"; "ethereal"; "bold"]%string.

Definition syntheticAlts : list jsstring :=
  str <$> ["striking"; "subtle"; "intense"; "gentle"; "powerful"; "delicate"]%string.

(** [MockLLM.complete], after its delay. *)
Definition mockComplete (input : jsstring) : list jsstring :=
  match trim input with
  | [] => []
  | base =>
      take 3 [base ++ str " in cinematic lighting";
              base ++ str " at golden hour";
              base ++ str " with dramatic shadows"]
  end.

Section Mock.
Context {U : Unicode}.
Variable Date_now : N → N.

Definition mockAlts (txt : jsstring) : AltsValue :=
  match ownProperty mockAltMap txt with
  | Some items => AltsArray items
  | None =>
      if bool_decide (txt ∈ objectPrototypeKeys) then AltsInherited txt
      else AltsArray mockVariants
  end.

(** One element of [candidates.map(...)]. *)
Definition mockToken (st : list Token * Globals) (txt : jsstring) : list Token * Globals :=
  let '(tokens, g) := st in
  let '(i, g) := uid Date_now g in
  let '(r, g) := inferRole g txt in
  (tokens ++ [{| id := i; text := txt; role := r; alts := mockAlts txt |}], g).

(** One round of the padding loop. *)
Definition padToken (st : list Token * Globals) : list Token * Globals :=
  let '(tokens, g) := st in
  let term := default [] (syntheticTerms !! (length tokens `mod` length syntheticTerms)) in
  let '(i, g) := uid Date_now g in
  let '(r, g) := inferRole g term in
  (tokens ++ [{| id := i; text := term; role := r; alts := AltsArray syntheticAlts |}], g).

(** [while (tokens.length < 8) { ... }], run for at most [fuel] rounds. *)
Fixpoint padTokens (fuel : nat) (st : list Token * Globals) : list Token * Globals :=
  if length st.1 <? 8 then
    match fuel with
    | O => st
    | S fuel' => padTokens fuel' (padToken st)
    end
  else st.

(** [MockLLM.alternatives], after its delay. Eight rounds are enough for
    the loop to end by its own test. *)
Definition mockAlternatives (g : Globals) (prompt : jsstring) : list Token * Globals :=
  let candidates :=
    filter (λ term, includes (toLowerCase prompt) (toLowerCase term) = true) mockTerms in
  let st := padTokens 8 (foldl mockToken ([], g) candidates) in
  (take 12 st.1, st.2).

End Mock.

(** The id made when the counter reaches [n]. *)
Definition idOf (Date_now : N → N) (n : N) : jsstring :=
  str "token-" ++ decimal (Date_now n) ++ str "-" ++ decimal n.

(** The ids of the tokens of [st] are those made at the counter values
    [ks], which are distinct, above [c0] and at most the counter of [st]. *)
Definition freshIds (Date_now : N → N) (c0 : N) (st : list Token * Globals) : Prop :=
  ∃ ks, id <$> st.1 = idOf Date_now <$> ks
        ∧ Forall (λ k, (c0 < k ≤ idCounter st.2)%N) ks ∧ NoDup ks
        ∧ (c0 ≤ idCounter st.2)%N.

(** A string of ASCII characters none of which is an upper-case letter. *)
Definition lowerAscii (s : jsstring) : bool :=
  forallb (λ c, (c <? 128)%N && (ascii_lower c =? c)%N) s.

(** The tokens found so far have distinct lower-case ASCII texts. *)
Definition distinctLower (st : list Token * Globals) : Prop :=
  NoDup (text <$> st.1) ∧ Forall (λ t, lowerAscii (text t) = true) st.1.

(** The invariant of the loops of the later extractor: the ids are fresh
    as in [freshIds], every text is contained in the lower-cased prompt, and
    the texts are distinct when the lower-cased prompt is lower-case
    ASCII. *)
Definition laterFound (Date_now : N → N) (lowered : jsstring) (c0 : N)
    (st : list Revision2.Token * Globals) : Prop :=
  (∃ ks, Revision2.id <$> st.1 = idOf Date_now <$> ks
         ∧ Forall (λ k, (c0 < k ≤ idCounter st.2)%N) ks ∧ NoDup ks
         ∧ (c0 ≤ idCounter st.2)%N)
  ∧ Forall (λ t, includes lowered (Revision2.text t) = true) st.1
  ∧ (lowerAscii lowered = true → NoDup (Revision2.text <$> st.1)).

(** A prompt for the later extractor and the tokens it gives on a fresh
    page. *)
Definition studioPrompt : jsstring := str "A CGI Portrait in the studio".

Definition studioTokens : list Revision2.Token :=
  (Revision2.extractFallbackTokens (U := plain_unicode) (λ _, 1700000000000%N)
     Revision2.initialGlobals studioPrompt).1.

(** ** The regular expression engine on token patterns *)

Section Engine.
Context {U : Unicode}.

Lemma matchAtoms_literal txt prev s :
  matchAtoms ((Chr <$> txt) ++ [WordBoundary]) prev s
  = if literal_at txt s prev then Some (length txt) else None.
Proof.
  revert prev s. induction txt as [|c txt IH]; intros prev s; simpl.
  - by destruct (xorb prev (head_is_word s)).
  - destruct s as [|x s]; [done|].
    destruct (ci_eq c x); simpl; [|done].
    rewrite IH. by destruct (literal_at txt s (is_word_char x)).
Qed.

Lemma matchPattern_token txt prev s :
  matchPattern (tokenPattern txt) prev s
  = if token_at txt s prev then Some (length txt) else None.
Proof.
  unfold tokenPattern, token_at. cbn [matchPattern app matchAtoms].
  destruct (xorb prev (head_is_word s)); simpl; [|done].
  rewrite matchAtoms_literal. by destruct (literal_at txt s prev).
Qed.

Lemma word_before_app pre (x : N) s :
  word_before ((pre ++ [x]) ++ s) (length (pre ++ [x])) = is_word_char x.
Proof.
  rewrite length_app, Nat.add_1_r. unfold word_before.
  rewrite <- app_assoc. simpl. by rewrite list_lookup_middle.
Qed.

Lemma word_at_app pre s : word_at (pre ++ s) (length pre) = head_is_word s.
Proof.
  unfold word_at. rewrite lookup_app_r by lia. rewrite Nat.sub_diag.
  by destruct s.
Qed.

Lemma slice_app pre s n :
  slice (pre ++ s) (length pre) (length pre + n) = take n s.
Proof.
  unfold slice. rewrite drop_app_length. f_equal. lia.
Qed.

Lemma literal_at_spec txt pre s :
  literal_at txt s (word_before (pre ++ s) (length pre))
  = ci_match txt (take (length txt) s)
    && boundary (pre ++ s) (length pre + length txt).
Proof.
  revert pre s. induction txt as [|c txt IH]; intros pre s.
  - cbn [literal_at length]. rewrite take_0, Nat.add_0_r. simpl.
    unfold boundary. by rewrite word_at_app.
  - destruct s as [|x s]; [done|].
    cbn [literal_at length take ci_match].
    rewrite <- (word_before_app pre x s), (IH (pre ++ [x]) s).
    rewrite length_app, <- !app_assoc. simpl.
    rewrite andb_assoc. do 2 f_equal. lia.
Qed.

Lemma token_at_spec txt pre s :
  token_at txt s (word_before (pre ++ s) (length pre))
  = occurs_at txt (pre ++ s) (length pre).
Proof.
  unfold token_at, occurs_at. rewrite literal_at_spec, slice_app.
  unfold boundary at 2. rewrite word_at_app. by rewrite andb_assoc.
Qed.

Lemma searchFrom_step txt pre (c : N) s :
  searchFrom (tokenPattern txt) (is_word_char c) s (S (length pre))
  = searchFrom (tokenPattern txt)
      (word_before ((pre ++ [c]) ++ s) (length (pre ++ [c]))) s (length (pre ++ [c])).
Proof. rewrite word_before_app, length_app. simpl. by rewrite Nat.add_1_r. Qed.

Lemma searchFrom_Some txt pre s a b :
  searchFrom (tokenPattern txt) (word_before (pre ++ s) (length pre)) s (length pre)
    = Some (a, b) →
  b = a + length txt ∧ length pre ≤ a ≤ length (pre ++ s)
  ∧ occurs_at txt (pre ++ s) a = true
  ∧ ∀ a', length pre ≤ a' < a → occurs_at txt (pre ++ s) a' = false.
Proof.
  revert pre. induction s as [|c s IH]; intros pre; cbn [searchFrom];
    rewrite matchPattern_token, token_at_spec;
    destruct (occurs_at txt _ (length pre)) eqn:Hocc.
  - intros [= <- <-]. rewrite length_app. simpl.
    repeat split; try (done || lia); intros; lia.
  - done.
  - intros [= <- <-]. rewrite length_app. simpl.
    repeat split; try (done || lia); intros; lia.
  - rewrite searchFrom_step. replace (pre ++ c :: s) with ((pre ++ [c]) ++ s) in *
      by (by rewrite <- app_assoc).
    intros H. apply IH in H as (-> & Ha & Hat & Hmin).
    rewrite length_app in Ha. simpl in Ha. repeat split; try (done || lia).
    intros a' Ha'. destruct (decide (a' = length pre)) as [->|]; [done|].
    apply Hmin. rewrite length_app. simpl. lia.
Qed.

Lemma searchFrom_None txt pre s :
  searchFrom (tokenPattern txt) (word_before (pre ++ s) (length pre)) s (length pre)
    = None →
  ∀ a, length pre ≤ a ≤ length (pre ++ s) → occurs_at txt (pre ++ s) a = false.
Proof.
  revert pre. induction s as [|c s IH]; intros pre; cbn [searchFrom];
    rewrite matchPattern_token, token_at_spec;
    destruct (occurs_at txt _ (length pre)) eqn:Hocc; try done.
  - intros _ a. rewrite length_app. simpl. intros Ha.
    by replace a with (length pre) by lia.
  - rewrite searchFrom_step. replace (pre ++ c :: s) with ((pre ++ [c]) ++ s) in *
      by (by rewrite <- app_assoc).
    intros H a Ha. destruct (decide (a = length pre)) as [->|]; [done|].
    apply (IH _ H). clear -Ha n. rewrite !length_app in Ha. rewrite !length_app. simpl in *. lia.
Qed.

Lemma RegExp_exec_token txt w :
  RegExp_exec (tokenPattern txt) w = searchFrom (tokenPattern txt) false w 0.
Proof. reflexivity. Qed.

(** A match of a token pattern is the first occurrence of the text. *)
Lemma exec_token_Some txt w a b :
  RegExp_exec (tokenPattern txt) w = Some (a, b) →
  b = a + length txt ∧ a ≤ length w ∧ occurs_at txt w a = true
  ∧ ∀ a', a' < a → occurs_at txt w a' = false.
Proof.
  rewrite RegExp_exec_token. intros H.
  apply (searchFrom_Some txt [] w) in H as (-> & Ha & Hat & Hmin).
  simpl in *. repeat split; try (done || lia). intros a' Ha'. apply Hmin. lia.
Qed.

Lemma exec_token_None txt w :
  RegExp_exec (tokenPattern txt) w = None ↔ occurs txt w = false.
Proof.
  rewrite RegExp_exec_token. unfold occurs. split.
  - intros H. pose proof (searchFrom_None txt [] w H) as Hno. simpl in Hno.
    apply not_true_is_false. intros (a & Ha & Hocc)%existsb_exists.
    apply in_seq in Ha. rewrite Hno in Hocc; [done | lia].
  - intros H. destruct (searchFrom _ _ _ _) as [[a b]|] eqn:Hs; [|done].
    apply (exec_token_Some txt w) in Hs as (_ & Ha & Hat & _).
    assert (existsb (occurs_at txt w) (seq 0 (S (length w))) = true) as Ht; [|congruence].
    apply existsb_exists. exists a. split; [|done]. apply in_seq. lia.
Qed.

(** A token pattern matches exactly at the first occurrence of its text. *)
Lemma exec_token_first txt w a :
  a ≤ length w → occurs_at txt w a = true →
  (∀ a', a' < a → occurs_at txt w a' = false) →
  RegExp_exec (tokenPattern txt) w = Some (a, a + length txt).
Proof.
  intros Ha Hocc Hmin.
  destruct (RegExp_exec (tokenPattern txt) w) as [[a0 b0]|] eqn:Hexec.
  - apply exec_token_Some in Hexec as (-> & _ & Hocc0 & Hmin0).
    destruct (Nat.lt_trichotomy a0 a) as [Hlt | [-> | Hgt]]; [|done|].
    + by rewrite (Hmin _ Hlt) in Hocc0.
    + by rewrite (Hmin0 _ Hgt) in Hocc.
  - apply exec_token_None in Hexec. unfold occurs in Hexec.
    assert (existsb (occurs_at txt w) (seq 0 (S (length w))) = true) as Ht; [|congruence].
    apply existsb_exists. exists a. split; [|done]. apply in_seq. lia.
Qed.

Lemma Canonicalize_ascii c : (c < 128)%N → Canonicalize c = ascii_upper c.
Proof. unfold Canonicalize. by intros ->%N.ltb_lt. Qed.

Lemma Canonicalize_high c : (128 ≤ c)%N → (128 ≤ Canonicalize c)%N.
Proof.
  unfold Canonicalize. intros Hc. destruct (N.ltb_spec c 128); [lia|].
  destruct (toUppercase c) as [|cu [|]]; try done.
  by destruct (N.ltb_spec cu 128).
Qed.

Lemma ci_eq_refl c : ci_eq c c = true.
Proof. apply N.eqb_refl. Qed.

(** The filler matches no ASCII character. *)
Lemma ci_eq_filler_ascii x : (x < 128)%N → ci_eq filler x = false.
Proof.
  intros Hx. unfold ci_eq. apply N.eqb_neq.
  pose proof (Canonicalize_high filler) as Hhigh. rewrite (Canonicalize_ascii x) by done.
  assert (ascii_upper x < 128)%N; [|unfold filler in *; lia].
  unfold ascii_upper. destruct (_ && _); lia.
Qed.

(** What an occurrence gives position by position. *)
Lemma ci_match_lookup txt s :
  ci_match txt s = true →
  length s = length txt
  ∧ ∀ k x, s !! k = Some x → ∃ c, txt !! k = Some c ∧ ci_eq c x = true.
Proof.
  revert s. induction txt as [|c txt IH]; intros [|x s]; simpl; try done.
  intros [Hc Hm]%andb_prop. apply IH in Hm as [Hlen Hk]. split; [by f_equal|].
  intros [|k] y; simpl; [intros [= <-]; eauto | apply Hk].
Qed.

Lemma lookup_slice (w : jsstring) a b k :
  slice w a b !! k = if decide (k < b - a) then w !! (a + k) else None.
Proof.
  unfold slice. case_decide.
  - by rewrite lookup_take_lt, lookup_drop.
  - by rewrite lookup_take_ge by lia.
Qed.

Lemma occurs_at_lookup txt w a :
  occurs_at txt w a = true → a ≤ length w →
  a + length txt ≤ length w
  ∧ ∀ k, a ≤ k < a + length txt →
      ∃ c x, txt !! (k - a) = Some c ∧ w !! k = Some x ∧ ci_eq c x = true.
Proof.
  unfold occurs_at. intros [[_ Hm]%andb_prop _]%andb_prop Ha.
  apply ci_match_lookup in Hm as [Hlen Hk].
  assert (a + length txt ≤ length w) as Hle.
  { unfold slice in Hlen. rewrite length_take, length_drop in Hlen. lia. }
  split; [done|]. intros k Hka.
  destruct (lookup_lt_is_Some_2 w k) as [x Hx]; [lia|].
  destruct (Hk (k - a) x) as (c & Hc & Hcx); [|by eauto].
  rewrite lookup_slice. case_decide; [|lia]. rewrite <- Hx. f_equal. lia.
Qed.

(** The empty text is first found in front of a word character. *)
Lemma searchFrom_empty s i a b :
  searchFrom (tokenPattern []) false s i = Some (a, b) →
  b = a ∧ i ≤ a ∧ ∃ x, s !! (a - i) = Some x ∧ is_word_char x = true.
Proof.
  revert i. induction s as [|c s IH]; intros i; cbn [searchFrom];
    rewrite matchPattern_token; unfold token_at; simpl; [done|].
  destruct (is_word_char c) eqn:Hc; simpl.
  - intros [= <- <-]. rewrite Nat.sub_diag. split; [lia|]. split; [lia|]. by exists c.
  - intros (-> & Hi & x & Hx & Hw)%IH. split; [done|]. split; [lia|].
    exists x. split; [|done]. by replace (a - i) with (S (a - S i)) by lia.
Qed.

Lemma exec_empty_word w a b :
  RegExp_exec (tokenPattern []) w = Some (a, b) →
  b = a ∧ ∃ x, w !! a = Some x ∧ is_word_char x = true.
Proof.
  rewrite RegExp_exec_token. intros (-> & _ & x & Hx & Hw)%searchFrom_empty.
  rewrite Nat.sub_0_r in Hx. eauto.
Qed.

End Engine.

(** ** [Array.prototype.sort] *)

Section Sorting.
Context {A : Type} (cmp : A → A → Z).

Lemma insertBy_perm x l : insertBy cmp x l ≡ₚ x :: l.
Proof.
  induction l as [|y l IH]; simpl; [done|].
  destruct (0 <? cmp x y)%Z; [|done].
  rewrite IH. apply Permutation_swap.
Qed.

Lemma Array_sort_perm l : Array_sort cmp l ≡ₚ l.
Proof.
  induction l as [|x l IH]; simpl; [done|].
  by rewrite insertBy_perm, IH.
Qed.

Context (R : A → A → Prop).
Hypothesis R_trans : ∀ x y z, R x y → R y z → R x z.
Hypothesis cmp_le : ∀ x y, (cmp x y ≤ 0)%Z → R x y.
Hypothesis cmp_gt : ∀ x y, (0 < cmp x y)%Z → R y x.

Lemma insertBy_sorted x l :
  StronglySorted R l → StronglySorted R (insertBy cmp x l).
Proof.
  induction 1 as [|y l Hl IH Hy]; simpl; [by repeat constructor|].
  destruct (Z.ltb_spec 0 (cmp x y)) as [Hlt|Hge].
  - constructor; [done|]. rewrite insertBy_perm. constructor; [by apply cmp_gt | done].
  - constructor; [by constructor|]. constructor; [by apply cmp_le|].
    eapply Forall_impl; [exact Hy|]. intros z Hz. eapply R_trans; [|exact Hz].
    by apply cmp_le.
Qed.

Lemma Array_sort_sorted l : StronglySorted R (Array_sort cmp l).
Proof.
  induction l as [|x l IH]; simpl; [constructor | by apply insertBy_sorted].
Qed.

End Sorting.

Lemma sortTokens_perm ts : sortTokens ts ≡ₚ ts.
Proof. apply Array_sort_perm. Qed.

Lemma sortTokens_sorted ts :
  StronglySorted (λ a b, length (text b) ≤ length (text a)) (sortTokens ts).
Proof. apply Array_sort_sorted; intros; lia. Qed.

Lemma sortPlacements_perm ps : sortPlacements ps ≡ₚ ps.
Proof. apply Array_sort_perm. Qed.

Lemma ForallOrdPairs_snoc {A} (R : A → A → Prop) l x :
  ForallOrdPairs R l → Forall (λ a, R a x) l → ForallOrdPairs R (l ++ [x]).
Proof.
  induction 1 as [|a l Ha Hl IH]; simpl; intros Hx.
  - repeat constructor.
  - apply Forall_cons in Hx as [Hax Hx]. constructor; [|by apply IH].
    apply Forall_app. split; [done | by constructor].
Qed.

(** Placements pushed in an [ordered] way come out of the sort chained:
    each ends before the next starts. *)
Lemma insertBy_chained a l :
  StronglySorted chained l →
  Forall (ordered a) l → start a ≤ end_ a → Forall (λ p, start p ≤ end_ p) l →
  StronglySorted chained
    (insertBy (λ a b, Z.of_nat (start a) - Z.of_nat (start b))%Z a l).
Proof.
  induction 1 as [|y l Hl IH Hy]; simpl; intros Hord Ha Hwf; [by repeat constructor|].
  apply Forall_cons in Hord as [Hay Hord]. apply Forall_cons in Hwf as [Hwy Hwf].
  destruct (Z.ltb_spec 0 (Z.of_nat (start a) - Z.of_nat (start y))) as [Hlt|Hge].
  - constructor; [by apply IH|]. rewrite insertBy_perm. constructor; [|done].
    unfold chained, ordered in *. lia.
  - constructor; [by constructor|].
    assert (chained a y) as Hc by (unfold chained, ordered in *; lia).
    constructor; [done|]. eapply Forall_impl; [exact Hy|].
    unfold chained in *. intros z Hz. lia.
Qed.

Lemma sortPlacements_chained ps :
  ForallOrdPairs ordered ps → Forall (λ p, start p ≤ end_ p) ps →
  StronglySorted chained (sortPlacements ps).
Proof.
  induction 1 as [|a l Ha Hl IH]; simpl; intros Hwf; [constructor|].
  apply Forall_cons in Hwf as [Hwa Hwf].
  apply insertBy_chained; [by apply IH | | done |].
  - by rewrite sortPlacements_perm.
  - by rewrite sortPlacements_perm.
Qed.

(** ** The first loop: recording placements *)

Section Pass.
Context {U : Unicode}.

Lemma filler_not_word : is_word_char filler = false.
Proof. reflexivity. Qed.

Lemma lookup_redact (w : jsstring) a b k :
  a ≤ b ≤ length w →
  (slice w 0 a ++ repeat1 filler (b - a) ++ slice_from w b) !! k
  = if decide (a ≤ k < b) then Some filler else w !! k.
Proof.
  intros Hab. unfold slice, slice_from, repeat1. rewrite drop_0, Nat.sub_0_r.
  assert (length (take a w) = a) as Hta by (rewrite length_take; lia).
  destruct (decide (k < a)).
  - rewrite lookup_app_l by lia. rewrite lookup_take_lt by lia.
    case_decide; [lia | done].
  - rewrite lookup_app_r by lia. rewrite Hta.
    destruct (decide (k < b)).
    + rewrite lookup_app_l by (rewrite length_replicate; lia).
      rewrite lookup_replicate_2 by lia. case_decide; [done | lia].
    + rewrite lookup_app_r by (rewrite length_replicate; lia).
      rewrite length_replicate, lookup_drop. case_decide; [lia|]. f_equal; lia.
Qed.

Lemma length_redact (w : jsstring) a b :
  a ≤ b ≤ length w →
  length (slice w 0 a ++ repeat1 filler (b - a) ++ slice_from w b) = length w.
Proof.
  intros Hab. unfold slice, slice_from, repeat1.
  rewrite !length_app, length_take, length_replicate, !length_drop. lia.
Qed.

(** A code unit matched by a filler-free text is not the filler. *)
Lemma filler_free_lookup t j c x :
  filler_free t = true → text t !! j = Some c → ci_eq c x = true → x ≠ filler.
Proof.
  unfold filler_free. intros Hff Hc Hcx ->.
  rewrite forallb_forall in Hff. apply list_elem_of_lookup_2, list_elem_of_In in Hc.
  apply Hff in Hc. by rewrite Hcx in Hc.
Qed.

Lemma placeToken_None working pls t :
  RegExp_exec (tokenPattern (text t)) working = None →
  placeToken (working, pls) t = (working, pls).
Proof. unfold placeToken. by intros ->. Qed.

Lemma placeToken_Some working pls t a b :
  RegExp_exec (tokenPattern (text t)) working = Some (a, b) →
  placeToken (working, pls) t
  = (slice working 0 a ++ repeat1 filler (b - a) ++ slice_from working b,
     pls ++ [{| start := a; end_ := b; tokenId := id t |}]).
Proof. unfold placeToken. by intros ->. Qed.

Lemma placeToken_inv raw all working pls t :
  pass_inv raw all working pls →
  t ∈ all → filler_free t = true →
  Forall (λ p, length (text t) ≤ end_ p - start p) pls →
  pass_inv raw all (placeToken (working, pls) t).1 (placeToken (working, pls) t).2
  ∧ Forall (λ p, length (text t) ≤ end_ p - start p) (placeToken (working, pls) t).2.
Proof.
  intros [Hlen Hwork Hpl Hord] Hin Hff Hlong.
  destruct (RegExp_exec (tokenPattern (text t)) working) as [[a b]|] eqn:Hexec.
  2: { rewrite (placeToken_None _ _ _ Hexec). by split. }
  rewrite (placeToken_Some _ _ _ _ _ Hexec). cbn [fst snd].
  pose proof (exec_token_Some _ _ _ _ Hexec) as (Hb & Ha & Hocc & _).
  pose proof (occurs_at_lookup _ _ _ Hocc Ha) as [Hle Hat].
  assert (a ≤ b ≤ length working) as Hab by lia.
  assert (∀ k, a ≤ k < b → ∃ x, working !! k = Some x ∧ x ≠ filler ∧ raw !! k = Some x)
    as Hfresh.
  { intros k Hk. destruct (Hat k) as (c & x & Hc & Hx & Hcx); [lia|].
    pose proof (filler_free_lookup _ _ _ _ Hff Hc Hcx) as Hnf.
    exists x. repeat split; [done..|]. by destruct (Hwork _ _ Hx). }
  assert (Forall (λ p, ordered p {| start := a; end_ := b; tokenId := id t |}) pls)
    as Hnew.
  { rewrite Forall_forall in Hpl, Hlong. apply Forall_forall. intros p Hp.
    destruct (Hpl p Hp) as (Hse & Hfill & _). specialize (Hlong p Hp).
    unfold ordered. simpl. destruct (decide (a = b)) as [<-|Hne].
    - assert (text t = []) as Ht by (apply length_zero_iff_nil; lia).
      rewrite Ht in Hexec. apply exec_empty_word in Hexec as (_ & x & Hx & Hw).
      destruct (decide (start p ≤ a < end_ p)) as [Hin'|]; [|lia].
      rewrite (Hfill _ Hin') in Hx. injection Hx as <-.
      by rewrite filler_not_word in Hw.
    - destruct (decide (end_ p ≤ a)); [by left|].
      destruct (decide (b ≤ start p)); [right; lia|].
      destruct (Hfresh (a `max` start p)) as (x & Hx & Hnf & _); [lia|].
      rewrite Hfill in Hx by lia. by injection Hx as <-. }
  split; [split|].
  - rewrite length_redact by done. done.
  - intros k c. rewrite lookup_redact by done. case_decide.
    + intros [= <-]. by left.
    + apply Hwork.
  - apply Forall_app. split.
    + eapply Forall_impl; [exact Hpl|]. intros p (Hse & Hfill & Htok).
      split; [done|]. split; [|done]. intros k Hk. rewrite lookup_redact by done.
      case_decide; [done | by apply Hfill].
    + constructor; [|constructor]. unfold placed_ok. simpl.
      split; [lia|]. split.
      * intros k Hk. rewrite lookup_redact by done. by case_decide.
      * exists t. repeat split; [done..|].
        unfold occurs_at in Hocc. apply andb_prop in Hocc as [[_ Hm]%andb_prop _].
        rewrite <- Hb in Hm. replace (slice raw a b) with (slice working a b); [done|].
        apply list_eq. intros k. rewrite !lookup_slice. case_decide; [|done].
        destruct (Hfresh (a + k)) as (x & Hx & _ & Hr); [lia|]. by rewrite Hx, Hr.
  - by apply ForallOrdPairs_snoc.
  - apply Forall_app. split; [done|]. constructor; [|constructor]. simpl. lia.
Qed.

Lemma foldl_placeToken_inv raw all toks : ∀ working pls,
  pass_inv raw all working pls →
  StronglySorted (λ a b, length (text b) ≤ length (text a)) toks →
  Forall (λ t, t ∈ all ∧ filler_free t = true) toks →
  Forall (λ t, Forall (λ p, length (text t) ≤ end_ p - start p) pls) toks →
  pass_inv raw all (foldl placeToken (working, pls) toks).1
                   (foldl placeToken (working, pls) toks).2.
Proof.
  induction toks as [|t toks IH]; intros working pls Hinv Hsorted Hall Hlong; [done|].
  apply StronglySorted_inv in Hsorted as [Hsorted Hhd].
  apply Forall_cons in Hall as [[Hin Hff] Hall].
  apply Forall_cons in Hlong as [Hlt Hlong].
  destruct (placeToken_inv _ _ _ _ _ Hinv Hin Hff Hlt) as [Hinv' Hlt'].
  cbn [foldl]. destruct (placeToken (working, pls) t) as [working' pls'].
  apply IH; [done..|]. cbn [fst snd] in *.
  rewrite Forall_forall in Hhd. apply Forall_forall. intros t' Ht'.
  eapply Forall_impl; [exact Hlt'|]. intros p Hp. simpl in Hp.
  specialize (Hhd t' Ht'). simpl in Hhd. lia.
Qed.

Lemma pass_inv_init raw all : pass_inv raw all raw [].
Proof. split; [done | by right | constructor | constructor]. Qed.

Lemma recordPlacements_inv raw ts :
  all_filler_free ts = true →
  ∃ working, pass_inv raw ts working (recordPlacements raw ts).
Proof.
  intros Hff. unfold recordPlacements.
  eexists. apply foldl_placeToken_inv.
  - apply pass_inv_init.
  - apply sortTokens_sorted.
  - apply Forall_forall. intros t Ht. rewrite sortTokens_perm in Ht. split; [done|].
    unfold all_filler_free in Hff. rewrite forallb_forall in Hff.
    by apply Hff, list_elem_of_In.
  - apply Forall_forall. intros; constructor.
Qed.

End Pass.

(** ** The second loop: emitting segments *)

Lemma foldl_emitPlacement raw pls : ∀ segs cur,
  (if (foldl (emitPlacement raw) (segs, cur) pls).2 <? length raw
   then (foldl (emitPlacement raw) (segs, cur) pls).1
        ++ [SegText (slice_from raw (foldl (emitPlacement raw) (segs, cur) pls).2)]
   else (foldl (emitPlacement raw) (segs, cur) pls).1)
  = segs ++ emitFrom raw cur pls.
Proof.
  induction pls as [|p pls IH]; intros segs cur; cbn [foldl emitFrom].
  - cbn [fst snd]. destruct (cur <? length raw); [done | by rewrite app_nil_r].
  - unfold emitPlacement at 2 4 6. rewrite IH.
    destruct (cur <? start p); by rewrite <- ?app_assoc.
Qed.

Lemma emitFrom_nonempty raw cur pls :
  cur < length raw ∨ pls ≠ [] → emitFrom raw cur pls ≠ [].
Proof.
  destruct pls as [|p pls]; simpl.
  - intros [Hlt|]; [|done]. apply Nat.ltb_lt in Hlt. by rewrite Hlt.
  - intros _. by destruct (cur <? start p).
Qed.

Section Emit.
Context {U : Unicode}.

Lemma segmentPrompt_emit raw ts :
  raw ≠ [] → ts ≠ [] →
  segmentPrompt raw ts = emitFrom raw 0 (sortPlacements (recordPlacements raw ts)).
Proof.
  intros Hraw Hts. unfold segmentPrompt.
  destruct raw as [|c raw']; [done|]. destruct ts as [|t ts']; [done|].
  set (raw := c :: raw'). set (ts := t :: ts').
  pose proof (foldl_emitPlacement raw (sortPlacements (recordPlacements raw ts)) [] 0) as Heq.
  destruct (foldl _ _ _) as [segs cur]. cbn [fst snd] in Heq. rewrite Heq. simpl app.
  destruct (emitFrom raw 0 _) eqn:Hemit; [|done].
  exfalso. eapply emitFrom_nonempty; [|exact Hemit]. left. simpl. lia.
Qed.

Lemma ci_match_canonical txt s :
  ci_match txt s = true → Canonicalize <$> txt = Canonicalize <$> s.
Proof.
  revert s. induction txt as [|c txt IH]; intros [|x s]; simpl; try done.
  intros [Hc Hm]%andb_prop. apply N.eqb_eq in Hc. f_equal; [done | by apply IH].
Qed.

End Emit.

Lemma drop_slices (raw : jsstring) cur s e :
  cur ≤ s ≤ e → drop cur raw = slice raw cur s ++ slice raw s e ++ drop e raw.
Proof.
  intros Hle. unfold slice.
  replace (drop s raw) with (drop (s - cur) (drop cur raw))
    by (rewrite drop_drop; f_equal; lia).
  replace (drop e raw) with (drop (e - s) (drop (s - cur) (drop cur raw)))
    by (rewrite !drop_drop; f_equal; lia).
  by rewrite !take_drop.
Qed.

Lemma buildRawFromSegments_app segs1 segs2 m :
  buildRawFromSegments (segs1 ++ segs2) m
  = buildRawFromSegments segs1 m ++ buildRawFromSegments segs2 m.
Proof. unfold buildRawFromSegments. by rewrite fmap_app, concat_app. Qed.

Lemma buildRawFromSegments_cons seg segs m :
  buildRawFromSegments (seg :: segs) m
  = resolveSegment m seg ++ buildRawFromSegments segs m.
Proof. reflexivity. Qed.

(** ** The token map *)

Lemma tokenMapOf_snoc ts t : tokenMapOf (ts ++ [t]) = <[id t := t]> (tokenMapOf ts).
Proof. unfold tokenMapOf. by rewrite foldl_snoc. Qed.

Lemma tokenMapOf_lookup_None ts k :
  k ∉ id <$> ts → tokenMapOf ts !! k = None.
Proof.
  induction ts as [|t ts IH] using rev_ind; intros Hk; [done|].
  rewrite tokenMapOf_snoc. rewrite fmap_app in Hk. simpl in Hk.
  apply not_elem_of_app in Hk as [Hts Ht]. apply not_elem_of_cons in Ht as [Hne _].
  rewrite lookup_insert_ne; [by apply IH | done].
Qed.

Lemma tokenMapOf_lookup ts t :
  NoDup (id <$> ts) → t ∈ ts → tokenMapOf ts !! id t = Some t.
Proof.
  induction ts as [|x ts IH] using rev_ind; intros Hnd Hin; [by apply elem_of_nil in Hin|].
  rewrite tokenMapOf_snoc. rewrite fmap_app in Hnd. simpl in Hnd.
  apply NoDup_app in Hnd as (Hnd & Hfresh & _).
  apply elem_of_app in Hin as [Hin | Hin]; [|apply list_elem_of_singleton in Hin as ->].
  - rewrite lookup_insert_ne; [by apply IH|].
    intros Heq. apply (Hfresh (id t)); [|rewrite Heq; by left].
    apply list_elem_of_fmap. eauto.
  - apply lookup_insert_eq.
Qed.

(** ** Reconstruction and partition *)

Section Laws.
Context {U : Unicode}.

Lemma build_emitFrom raw m sp : ∀ cur,
  StronglySorted chained sp →
  Forall (λ p, cur ≤ start p) sp →
  Forall (λ p, start p ≤ end_ p
               ∧ ∃ t, m !! tokenId p = Some t
                      ∧ ci_match (text t) (slice raw (start p) (end_ p)) = true) sp →
  Canonicalize <$> buildRawFromSegments (emitFrom raw cur sp) m
  = Canonicalize <$> drop cur raw.
Proof.
  induction sp as [|p sp IH]; intros cur Hchain Hcur Hok; cbn [emitFrom].
  - destruct (Nat.ltb_spec cur (length raw)).
    + unfold buildRawFromSegments, slice_from. simpl. by rewrite app_nil_r.
    + by rewrite drop_ge by lia.
  - apply StronglySorted_inv in Hchain as [Hchain Hp].
    apply Forall_cons in Hcur as [Hcp _].
    apply Forall_cons in Hok as [(Hse & t & Ht & Hm) Hok].
    rewrite (drop_slices raw cur (start p) (end_ p)) by lia.
    rewrite buildRawFromSegments_app, buildRawFromSegments_cons, !fmap_app.
    cbn [resolveSegment]. rewrite Ht.
    rewrite (ci_match_canonical _ _ Hm), (IH (end_ p)); [|done..].
    f_equal. destruct (Nat.ltb_spec cur (start p)).
    + unfold buildRawFromSegments. simpl. by rewrite app_nil_r.
    + unfold slice. by replace (start p - cur) with 0 by lia.
Qed.

Lemma pass_inv_wf raw all working pls :
  pass_inv raw all working pls → Forall (λ p, start p ≤ end_ p) pls.
Proof.
  intros [_ _ Hpl _]. eapply Forall_impl; [exact Hpl|]. intros p (? & _). lia.
Qed.

(** C1 (as amended): the segments of [segmentPrompt raw ts], each token
    segment resolved to the text of its token, concatenate to [raw] up to
    letter case, provided the token ids are distinct and no token text holds
    a character that matches the filler. *)
Theorem segmentPrompt_reconstructs_up_to_case raw ts :
  NoDup (id <$> ts) → all_filler_free ts = true →
  Canonicalize <$> buildRawFromSegments (segmentPrompt raw ts) (tokenMapOf ts)
  = Canonicalize <$> raw.
Proof.
  intros Hnd Hff. destruct raw as [|c raw']; [done|]. destruct ts as [|t0 ts'].
  { unfold buildRawFromSegments. simpl. by rewrite app_nil_r. }
  set (raw := c :: raw') in *. set (ts := t0 :: ts') in *.
  rewrite segmentPrompt_emit by done.
  destruct (recordPlacements_inv raw ts Hff) as [working Hinv].
  rewrite build_emitFrom; [done | | |].
  - apply sortPlacements_chained; [apply Hinv | by eapply pass_inv_wf].
  - apply Forall_forall. intros; lia.
  - destruct Hinv as [_ _ Hpl _]. rewrite sortPlacements_perm.
    eapply Forall_impl; [exact Hpl|]. intros p (Hse & _ & t & Hin & Hid & _ & Hm).
    split; [lia|]. exists t. split; [|done]. rewrite <- Hid.
    by apply tokenMapOf_lookup.
Qed.

Lemma ForallOrdPairs_lookup {A} (R : A → A → Prop) l i j a b :
  ForallOrdPairs R l → i < j → l !! i = Some a → l !! j = Some b → R a b.
Proof.
  intros Hl. revert i j. induction Hl as [|x l Hx Hl IH]; intros i j Hij Hi Hj; [done|].
  destruct j as [|j]; [lia|]. destruct i as [|i]; simpl in *.
  - injection Hi as <-. rewrite Forall_forall in Hx.
    by eapply Hx, list_elem_of_lookup_2.
  - apply (IH i j); [lia | done..].
Qed.

Lemma ordered_disjoint a b : ordered a b → disjoint a b ∧ disjoint b a.
Proof. unfold ordered, disjoint. lia. Qed.

Lemma emitFrom_spans raw pls sp : ∀ cur,
  StronglySorted chained sp →
  Forall (λ p, cur ≤ start p) sp →
  Forall (λ p, p ∈ pls ∧ start p ≤ end_ p ≤ length raw) sp →
  cur ≤ length raw →
  Forall2 (covers raw pls) (emitFrom raw cur sp) (spansFrom (length raw) cur sp)
  ∧ tiles cur (length raw) (spansFrom (length raw) cur sp).
Proof.
  induction sp as [|p sp IH]; intros cur Hchain Hcur Hok Hle; cbn [emitFrom spansFrom].
  - destruct (Nat.ltb_spec cur (length raw)); simpl.
    + split; [|lia]. repeat constructor. simpl. unfold slice_from, slice.
      by rewrite take_ge by (rewrite length_drop; lia).
    + split; [constructor | lia].
  - apply StronglySorted_inv in Hchain as [Hchain Hp].
    apply Forall_cons in Hcur as [Hcp _].
    apply Forall_cons in Hok as [(Hin & Hse) Hok].
    destruct (IH (end_ p)) as [Hcov Htile]; [done.. | lia |].
    assert (covers raw pls (SegToken (tokenId p)) (start p, end_ p)) as Htok
      by (simpl; eauto).
    destruct (Nat.ltb_spec cur (start p)); simpl.
    + split; [constructor; [done | by constructor]|].
      repeat split; (done || lia).
    + split; [by constructor|]. repeat split; (done || lia).
Qed.

(** C2 (as amended): when no token text holds a character that matches
    the filler, the placements recorded by [segmentPrompt] are pairwise
    disjoint ranges of [raw], and the emitted segments stand on consecutive
    ranges that tile the index range of [raw]. *)
Theorem segmentPrompt_partition raw ts :
  all_filler_free ts = true →
  Forall (λ p, start p ≤ end_ p ≤ length raw) (recordPlacements raw ts)
  ∧ (∀ i j p q, i ≠ j → recordPlacements raw ts !! i = Some p →
       recordPlacements raw ts !! j = Some q → disjoint p q)
  ∧ ∃ spans,
      Forall2 (covers raw (recordPlacements raw ts)) (segmentPrompt raw ts) spans
      ∧ tiles 0 (length raw) spans.
Proof.
  intros Hff. destruct (recordPlacements_inv raw ts Hff) as [working Hinv].
  assert (Forall (λ p, start p ≤ end_ p ≤ length raw) (recordPlacements raw ts)) as Hwf.
  { destruct Hinv as [_ _ Hpl _]. eapply Forall_impl; [exact Hpl|]. by intros p (? & _). }
  split; [done|]. split.
  - intros i j p q Hij Hi Hj. destruct Hinv as [_ _ _ Hord].
    destruct (decide (i < j)).
    + apply (ordered_disjoint p q).
      by apply (ForallOrdPairs_lookup _ _ i j _ _ Hord).
    + apply (ordered_disjoint q p).
      apply (ForallOrdPairs_lookup _ _ j i _ _ Hord); [lia | done..].
  - destruct raw as [|c raw']; [exists []; by split; [constructor|]|].
    destruct ts as [|t0 ts'].
    { exists [(0, length (c :: raw'))]. split; [|simpl; lia].
      repeat constructor. simpl. unfold slice. by rewrite take_ge by (simpl; lia). }
    set (raw := c :: raw') in *. set (ts := t0 :: ts') in *.
    rewrite segmentPrompt_emit by done.
    exists (spansFrom (length raw) 0 (sortPlacements (recordPlacements raw ts))).
    apply emitFrom_spans; [| | |lia].
    + apply sortPlacements_chained; [apply Hinv | by eapply pass_inv_wf].
    + apply Forall_forall. intros; lia.
    + apply Forall_forall. intros p Hp. rewrite sortPlacements_perm in Hp.
      split; [done|]. rewrite Forall_forall in Hwf. by apply Hwf.
Qed.

End Laws.

(** ** Placements per token *)

Section Counting.
Context {U : Unicode}.

Lemma placeToken_ids working pls t :
  tokenId <$> (placeToken (working, pls) t).2 = tokenId <$> pls
  ∨ tokenId <$> (placeToken (working, pls) t).2 = (tokenId <$> pls) ++ [id t].
Proof.
  unfold placeToken. destruct (RegExp_exec _ _) as [[a b]|]; simpl; [right | by left].
  by rewrite fmap_app.
Qed.

Lemma foldl_placeToken_count (i : jsstring) toks : ∀ working pls,
  length (filter (λ x, x = i) (tokenId <$> (foldl placeToken (working, pls) toks).2))
  ≤ length (filter (λ x, x = i) (tokenId <$> pls))
    + length (filter (λ x, x = i) (id <$> toks)).
Proof.
  induction toks as [|t toks IH]; intros working pls; cbn [foldl]; [simpl; lia|].
  pose proof (placeToken_ids working pls t) as Hstep.
  destruct (placeToken (working, pls) t) as [working' pls']. cbn [snd] in Hstep.
  etrans; [apply IH|]. rewrite fmap_cons, filter_cons.
  destruct Hstep as [-> | ->].
  - case_decide; simpl; lia.
  - rewrite filter_app, length_app, filter_cons, filter_nil.
    case_decide; simpl; lia.
Qed.

Lemma recordPlacements_count raw ts (i : jsstring) :
  length (filter (λ x, x = i) (tokenId <$> recordPlacements raw ts))
  ≤ length (filter (λ x, x = i) (id <$> ts)).
Proof.
  unfold recordPlacements. etrans; [apply foldl_placeToken_count|]. simpl.
  by rewrite sortTokens_perm.
Qed.

Lemma tokenIds_emitFrom raw pls : ∀ cur, tokenIds (emitFrom raw cur pls) = tokenId <$> pls.
Proof.
  unfold tokenIds. induction pls as [|p pls IH]; intros cur; cbn [emitFrom].
  - by destruct (cur <? length raw).
  - rewrite omap_app. destruct (cur <? start p); simpl; by rewrite IH.
Qed.

Lemma tokenIds_segmentPrompt raw ts (i : jsstring) :
  length (filter (λ x, x = i) (tokenIds (segmentPrompt raw ts)))
  ≤ length (filter (λ x, x = i) (tokenId <$> recordPlacements raw ts)).
Proof.
  destruct raw as [|c raw']; [simpl; lia|]. destruct ts as [|t0 ts']; [simpl; lia|].
  rewrite segmentPrompt_emit, tokenIds_emitFrom by done.
  by rewrite sortPlacements_perm.
Qed.

(** C3: on "a category" with the tokens "cat" and "category", in either
    order and whatever their ids, roles and alternatives, exactly one
    placement is recorded, for "category" on the range 2..10, and the
    segments are the text "a " followed by that token. *)
Theorem category_before_cat (idCat idCategory : jsstring) (r1 r2 : TokenRole)
    (a1 a2 : AltsValue) :
  let cat := {| id := idCat; text := str "cat"; role := r1; alts := a1 |} in
  let category := {| id := idCategory; text := str "category"; role := r2; alts := a2 |} in
  let expected := [{| start := 2; end_ := 10; tokenId := idCategory |}] in
  (recordPlacements (str "a category") [cat; category] = expected
   ∧ segmentPrompt (str "a category") [cat; category]
     = [SegText (str "a "); SegToken idCategory])
  ∧ (recordPlacements (str "a category") [category; cat] = expected
     ∧ segmentPrompt (str "a category") [category; cat]
       = [SegText (str "a "); SegToken idCategory])
  ∧ occurs (str "cat") (str "a category") = false.
Proof. vm_compute. done. Qed.

(** C4: on "red cat, red dog, red bird" with the one token "red", one token
    segment is emitted, for the occurrence at index 0, and the other two
    occurrences stay in the text segment that follows. In general a token id
    gets a placement, and appears among the segments, at most as often as it
    appears in the token list. *)
Theorem first_occurrence_only :
  (∀ (idRed : jsstring) (r : TokenRole) (a : AltsValue),
     let red := {| id := idRed; text := str "red"; role := r; alts := a |} in
     recordPlacements (str "red cat, red dog, red bird") [red]
     = [{| start := 0; end_ := 3; tokenId := idRed |}]
     ∧ segmentPrompt (str "red cat, red dog, red bird") [red]
       = [SegToken idRed; SegText (str " cat, red dog, red bird")])
  ∧ ∀ raw ts (i : jsstring),
      length (filter (λ x, x = i) (tokenId <$> recordPlacements raw ts))
      ≤ length (filter (λ x, x = i) (id <$> ts))
      ∧ length (filter (λ x, x = i) (tokenIds (segmentPrompt raw ts)))
        ≤ length (filter (λ x, x = i) (id <$> ts)).
Proof.
  split; [intros; vm_compute; done|]. intros raw ts i.
  split; [apply recordPlacements_count|].
  etrans; [apply tokenIds_segmentPrompt | apply recordPlacements_count].
Qed.

End Counting.

(** ** Degenerate inputs *)

Section Degenerate.
Context {U : Unicode}.

Lemma foldl_placeToken_absent raw toks pls :
  (∀ t, t ∈ toks → occurs (text t) raw = false) →
  foldl placeToken (raw, pls) toks = (raw, pls).
Proof.
  induction toks as [|t toks IH]; intros Habs; [done|]. cbn [foldl].
  rewrite placeToken_None; [apply IH | apply exec_token_None, Habs; by left].
  intros t' Ht'. apply Habs. by right.
Qed.

Lemma recordPlacements_absent raw ts :
  (∀ t, t ∈ ts → occurs (text t) raw = false) → recordPlacements raw ts = [].
Proof.
  intros Habs. unfold recordPlacements. rewrite foldl_placeToken_absent; [done|].
  intros t Ht. apply Habs. by rewrite <- sortTokens_perm.
Qed.

(** C5: [segmentPrompt] returns no segment on the empty string; on a
    non-empty [raw] it returns the single text segment [raw] when there is
    no token, and when no token's text occurs in [raw] (word-bounded, up to
    case). *)
Theorem segmentPrompt_degenerate :
  (∀ ts, segmentPrompt [] ts = [])
  ∧ (∀ raw, raw ≠ [] → segmentPrompt raw [] = [SegText raw])
  ∧ (∀ raw ts, raw ≠ [] → (∀ t, t ∈ ts → occurs (text t) raw = false) →
       segmentPrompt raw ts = [SegText raw]).
Proof.
  split; [done|]. split; [by intros [|c raw]|].
  intros raw ts Hraw Habs. destruct ts as [|t0 ts']; [by destruct raw|].
  rewrite segmentPrompt_emit, recordPlacements_absent by done. simpl.
  destruct raw; [done|]. reflexivity.
Qed.

End Degenerate.

(** ** [buildRawFromSegments] and [replaceToken] *)

(** C10: [buildRawFromSegments] is a total function, and a token segment
    whose id is not in the map resolves to the empty string: the rebuilt
    text is that of the other segments. *)
Theorem buildRawFromSegments_dangling (segs1 : list Segment) (tokenId : jsstring)
    (segs2 : list Segment) (m : gmap jsstring Token) :
  m !! tokenId = None →
  resolveSegment m (SegToken tokenId) = []
  ∧ buildRawFromSegments (segs1 ++ SegToken tokenId :: segs2) m
    = buildRawFromSegments (segs1 ++ segs2) m.
Proof.
  intros Hm. assert (resolveSegment m (SegToken tokenId) = []) as Hres
    by (simpl; by rewrite Hm).
  split; [done|].
  by rewrite !buildRawFromSegments_app, buildRawFromSegments_cons, Hres.
Qed.

Lemma replaceToken_Some st doc tokenId newText :
  promptDoc st = Some doc →
  replaceToken st tokenId newText
  = {| promptDoc :=
         Some {| raw := buildRawFromSegments (segments st)
                          (tokenMapOf (updateToken tokenId newText <$> tokens doc));
                 tokens := updateToken tokenId newText <$> tokens doc |};
       segments := segments st;
       openTokenId := None |}.
Proof. unfold replaceToken. by intros ->. Qed.

Lemma updateToken_absent tokenId newText (ts : list Token) :
  tokenId ∉ id <$> ts → updateToken tokenId newText <$> ts = ts.
Proof.
  induction ts as [|t ts IH]; [done|]. rewrite fmap_cons, not_elem_of_cons.
  intros [Hne Hts]. rewrite fmap_cons, IH by done. unfold updateToken.
  by rewrite decide_False.
Qed.

Lemma setText_own t : setText (text t) t = t.
Proof. by destruct t. Qed.

Lemma updateToken_own t (ts : list Token) :
  NoDup (id <$> ts) → t ∈ ts → updateToken (id t) (text t) <$> ts = ts.
Proof.
  intros Hnd Hin. rewrite <- (list_fmap_id ts) at 2. apply list_fmap_ext.
  intros k t' Hk. unfold updateToken. case_decide as Hid; [|done].
  apply list_elem_of_lookup in Hin as [j Hj].
  assert (k = j) as ->.
  { eapply NoDup_lookup; [exact Hnd | |]; rewrite list_lookup_fmap.
    - by rewrite Hk.
    - rewrite Hj. simpl. by rewrite Hid. }
  assert (t' = t) as -> by congruence. apply setText_own.
Qed.

(** C6 (as amended): without a document [replaceToken] changes nothing;
    with a document and a [tokenId] that names none of its tokens, the
    tokens and the segments stay as they are and [raw] becomes the rebuild of
    the segments, so the document is unchanged when its [raw] was that
    rebuild already. *)
Theorem replaceToken_no_target st tokenId newText :
  (promptDoc st = None ∨ ∃ doc, promptDoc st = Some doc ∧ tokenId ∉ id <$> tokens doc) →
  match promptDoc st with
  | None => replaceToken st tokenId newText = st
  | Some doc =>
      replaceToken st tokenId newText
      = {| promptDoc :=
             Some {| raw := buildRawFromSegments (segments st) (tokenMapOf (tokens doc));
                     tokens := tokens doc |};
           segments := segments st;
           openTokenId := None |}
      ∧ (consistent st → promptDoc (replaceToken st tokenId newText) = promptDoc st)
  end.
Proof.
  unfold consistent. intros [Hnone | (doc & Hdoc & Habs)].
  - unfold replaceToken. by rewrite Hnone.
  - rewrite (replaceToken_Some _ _ _ _ Hdoc), Hdoc, updateToken_absent by done.
    split; [done|]. simpl. intros <-. by destruct doc.
Qed.

(** C7 (as amended): replacing a token of a document with distinct ids by
    its own text leaves the tokens and the segments as they are and sets
    [raw] to the rebuild of the segments; [raw] is unchanged when it was that
    rebuild already. *)
Theorem replaceToken_own_text st doc t :
  promptDoc st = Some doc → NoDup (id <$> tokens doc) → t ∈ tokens doc →
  replaceToken st (id t) (text t)
  = {| promptDoc :=
         Some {| raw := buildRawFromSegments (segments st) (tokenMapOf (tokens doc));
                 tokens := tokens doc |};
       segments := segments st;
       openTokenId := None |}
  ∧ (consistent st → promptDoc (replaceToken st (id t) (text t)) = Some doc).
Proof.
  intros Hdoc Hnd Hin. unfold consistent.
  rewrite (replaceToken_Some _ _ _ _ Hdoc), Hdoc, updateToken_own by done.
  split; [done|]. simpl. intros <-. by destruct doc.
Qed.

(** Every call with a document leaves a consistent state. *)
Lemma replaceToken_consistent st doc tokenId newText :
  promptDoc st = Some doc → consistent (replaceToken st tokenId newText).
Proof. intros Hdoc. by rewrite (replaceToken_Some _ _ _ _ Hdoc). Qed.

Lemma updateToken_twice tokenId newText t :
  updateToken tokenId newText (updateToken tokenId newText t)
  = updateToken tokenId newText t.
Proof.
  unfold updateToken. destruct (decide (id t = tokenId)) as [Heq|Hne]; simpl.
  - by rewrite decide_True.
  - by rewrite decide_False.
Qed.

(** A second call with the same arguments changes nothing. *)
Lemma replaceToken_idempotent st tokenId newText :
  replaceToken (replaceToken st tokenId newText) tokenId newText
  = replaceToken st tokenId newText.
Proof.
  destruct (promptDoc st) as [doc|] eqn:Hdoc.
  - rewrite (replaceToken_Some st doc) by done.
    erewrite replaceToken_Some by reflexivity. cbn [tokens segments].
    rewrite <- list_fmap_compose.
    by rewrite (list_fmap_ext _ (updateToken tokenId newText) (tokens doc))
      by (intros; apply updateToken_twice).
  - unfold replaceToken. by rewrite Hdoc, Hdoc.
Qed.

(** C8: after [replaceToken] on a document, the tokens are the same in
    number and order; a token with the given id has the new text and its
    former id, role and alternatives, any other token is unchanged; and the
    segments are the same. *)
Theorem replaceToken_frame st doc tokenId newText :
  promptDoc st = Some doc →
  ∃ doc', promptDoc (replaceToken st tokenId newText) = Some doc'
    ∧ length (tokens doc') = length (tokens doc)
    ∧ (∀ k t, tokens doc !! k = Some t →
         ∃ t', tokens doc' !! k = Some t'
           ∧ id t' = id t ∧ role t' = role t ∧ alts t' = alts t
           ∧ (id t = tokenId → text t' = newText)
           ∧ (id t ≠ tokenId → t' = t))
    ∧ segments (replaceToken st tokenId newText) = segments st.
Proof.
  intros Hdoc. rewrite (replaceToken_Some _ _ _ _ Hdoc). eexists. split; [done|].
  cbn [tokens segments]. split; [by rewrite length_fmap|]. split; [|done].
  intros k t Hk. exists (updateToken tokenId newText t).
  rewrite list_lookup_fmap, Hk. split; [done|].
  unfold updateToken. case_decide; by repeat split.
Qed.

(** ** Instances and counterexamples *)

(** On "A Cat" with the token "cat" the rebuild is "A cat", whatever the
    case tables of the runtime. *)
Lemma reconstruction_not_exact :
  ¬ ∃ U : Unicode,
      buildRawFromSegments (segmentPrompt (str "A Cat") mixedCaseTokens)
        (tokenMapOf mixedCaseTokens)
      = str "A Cat".
Proof. intros [U H]. vm_compute in H. discriminate. Qed.

(** The reconstruction law at "A Cat" with the token "cat". *)
Lemma reconstruction_witness :
  NoDup (id <$> mixedCaseTokens)
  ∧ all_filler_free (U := plain_unicode) mixedCaseTokens = true
  ∧ Canonicalize (U := plain_unicode)
      <$> buildRawFromSegments
            (segmentPrompt (U := plain_unicode) (str "A Cat") mixedCaseTokens)
            (tokenMapOf mixedCaseTokens)
    = Canonicalize (U := plain_unicode) <$> str "A Cat".
Proof.
  assert (NoDup (id <$> mixedCaseTokens)) as Hnd by (apply NoDup_singleton).
  assert (all_filler_free (U := plain_unicode) mixedCaseTokens = true) as Hff
    by reflexivity.
  split; [done|]. split; [done|].
  exact (segmentPrompt_reconstructs_up_to_case (U := plain_unicode)
           (str "A Cat") mixedCaseTokens Hnd Hff).
Defined.

(** On "a-b" the token "-" is given the range 1..2, and the token whose
    text is the filler character is then given the same range, whatever the
    case tables of the runtime. *)
Lemma recordPlacements_fillerTokens {U : Unicode} :
  recordPlacements (str "a-b") fillerTokens
  = [{| start := 1; end_ := 2; tokenId := str "t1" |};
     {| start := 1; end_ := 2; tokenId := str "t2" |}].
Proof.
  unfold recordPlacements.
  change (sortTokens fillerTokens) with fillerTokens. unfold fillerTokens.
  cbn [foldl].
  assert (placeToken (str "a-b", [])
            {| id := str "t1"; text := str "-"; role := descriptor; alts := AltsArray [] |}
          = (str "a" ++ [filler] ++ str "b",
             [{| start := 1; end_ := 2; tokenId := str "t1" |}])) as -> by (by vm_compute).
  rewrite (placeToken_Some _ _ _ 1 2); [done|].
  apply (exec_token_first [filler] _ 1); [simpl; lia | |].
  - change (occurs_at [filler] (str "a" ++ [filler] ++ str "b") 1)
      with (true && (ci_eq filler filler && true) && true).
    by rewrite ci_eq_refl.
  - intros a' Ha'. assert (a' = 0) as -> by lia.
    change (occurs_at [filler] (str "a" ++ [filler] ++ str "b") 0)
      with (true && (ci_eq filler 97 && true) && true).
    by rewrite ci_eq_filler_ascii.
Qed.

Lemma placements_overlap_on_filler_text :
  ¬ ∃ U : Unicode, ∀ i j p q, i ≠ j →
      recordPlacements (str "a-b") fillerTokens !! i = Some p →
      recordPlacements (str "a-b") fillerTokens !! j = Some q →
      disjoint p q.
Proof.
  intros [U H]. rewrite recordPlacements_fillerTokens in H.
  specialize (H 0 1 _ _ ltac:(done) eq_refl eq_refl).
  unfold disjoint in H. simpl in H. lia.
Qed.

(** The partition at "A Cat" with the token "cat". *)
Lemma partition_witness :
  all_filler_free (U := plain_unicode) mixedCaseTokens = true
  ∧ Forall (λ p, start p ≤ end_ p ≤ length (str "A Cat"))
      (recordPlacements (U := plain_unicode) (str "A Cat") mixedCaseTokens)
  ∧ (∀ i j p q, i ≠ j →
       recordPlacements (U := plain_unicode) (str "A Cat") mixedCaseTokens !! i = Some p →
       recordPlacements (U := plain_unicode) (str "A Cat") mixedCaseTokens !! j = Some q →
       disjoint p q)
  ∧ ∃ spans,
      Forall2 (covers (str "A Cat")
                 (recordPlacements (U := plain_unicode) (str "A Cat") mixedCaseTokens))
        (segmentPrompt (U := plain_unicode) (str "A Cat") mixedCaseTokens) spans
      ∧ tiles 0 (length (str "A Cat")) spans.
Proof.
  assert (all_filler_free (U := plain_unicode) mixedCaseTokens = true) as Hff
    by reflexivity.
  split; [done|].
  exact (segmentPrompt_partition (U := plain_unicode) (str "A Cat") mixedCaseTokens Hff).
Defined.

(** "cat" does not occur in "a blue sky". *)
Lemma degenerate_witness :
  str "a blue sky" ≠ []
  ∧ (∀ t, t ∈ mixedCaseTokens →
       occurs (U := plain_unicode) (text t) (str "a blue sky") = false)
  ∧ segmentPrompt (U := plain_unicode) (str "a blue sky") mixedCaseTokens
    = [SegText (str "a blue sky")].
Proof.
  assert (str "a blue sky" ≠ []) as Hraw by done.
  assert (∀ t, t ∈ mixedCaseTokens →
            occurs (U := plain_unicode) (text t) (str "a blue sky") = false) as Habs.
  { intros t Ht. apply list_elem_of_singleton in Ht. by subst t. }
  split; [done|]. split; [done|].
  exact (proj2 (proj2 (segmentPrompt_degenerate (U := plain_unicode)))
           (str "a blue sky") mixedCaseTokens Hraw Habs).
Defined.

(** In the state reached from "A Cat", a call with an id that names no
    token rewrites [raw] to "A cat". *)
Lemma replaceToken_unknown_id_rewrites_raw :
  ¬ ∃ U : Unicode,
      promptDoc (replaceToken mixedCaseState (str "t2") (str "dog"))
      = promptDoc mixedCaseState.
Proof. intros [U H]. vm_compute in H. discriminate. Qed.

(** The same call, as the law for an unknown id describes it. *)
Lemma replaceToken_no_target_witness :
  (promptDoc (mixedCaseState (U := plain_unicode)) = None
   ∨ ∃ doc, promptDoc (mixedCaseState (U := plain_unicode)) = Some doc
            ∧ str "t2" ∉ id <$> tokens doc)
  ∧ replaceToken (mixedCaseState (U := plain_unicode)) (str "t2") (str "dog")
    = {| promptDoc := Some {| raw := str "A cat"; tokens := mixedCaseTokens |};
         segments := [SegText (str "A "); SegToken (str "t1")];
         openTokenId := None |}.
Proof.
  assert (promptDoc (mixedCaseState (U := plain_unicode)) = None
          ∨ ∃ doc, promptDoc (mixedCaseState (U := plain_unicode)) = Some doc
                   ∧ str "t2" ∉ id <$> tokens doc) as Hpre.
  { right. eexists. split; [reflexivity|]. simpl. by intros ?%list_elem_of_singleton. }
  split; [done|].
  exact (proj1 (replaceToken_no_target (mixedCaseState (U := plain_unicode))
                  (str "t2") (str "dog") Hpre)).
Defined.

(** In the same state, replacing the token "cat" by its own text rewrites
    [raw] to "A cat". *)
Lemma replaceToken_own_text_rewrites_raw :
  ¬ ∃ U : Unicode,
      raw <$> promptDoc (replaceToken mixedCaseState (str "t1") (str "cat"))
      = raw <$> promptDoc mixedCaseState.
Proof. intros [U H]. vm_compute in H. discriminate. Qed.

(** In a consistent state, replacing "blue" by "blue" keeps the document. *)
Lemma replaceToken_own_text_witness :
  promptDoc blueSkyState = Some {| raw := str "a blue sky"; tokens := blueSkyTokens |}
  ∧ NoDup (id <$> blueSkyTokens)
  ∧ promptDoc (replaceToken blueSkyState (str "t1") (str "blue"))
    = Some {| raw := str "a blue sky"; tokens := blueSkyTokens |}.
Proof.
  assert (NoDup (id <$> blueSkyTokens)) as Hnd by (apply NoDup_singleton).
  assert (consistent blueSkyState) as Hcons by reflexivity.
  split; [done|]. split; [done|].
  refine (proj2 (replaceToken_own_text blueSkyState _
                   {| id := str "t1"; text := str "blue"; role := descriptor;
                      alts := AltsArray [str "azure"] |} eq_refl Hnd _) Hcons).
  by apply list_elem_of_singleton.
Defined.

(** Replacing "blue" by "azure" in the same state. *)
Lemma replaceToken_frame_witness :
  promptDoc blueSkyState = Some {| raw := str "a blue sky"; tokens := blueSkyTokens |}
  ∧ ∃ doc', promptDoc (replaceToken blueSkyState (str "t1") (str "azure")) = Some doc'
      ∧ length (tokens doc') = length blueSkyTokens
      ∧ (∀ k t, blueSkyTokens !! k = Some t →
           ∃ t', tokens doc' !! k = Some t'
             ∧ id t' = id t ∧ role t' = role t ∧ alts t' = alts t
             ∧ (id t = str "t1" → text t' = str "azure")
             ∧ (id t ≠ str "t1" → t' = t))
      ∧ segments (replaceToken blueSkyState (str "t1") (str "azure"))
        = segments blueSkyState.
Proof.
  split; [done|].
  exact (replaceToken_frame blueSkyState _ (str "t1") (str "azure") eq_refl).
Defined.

(** A segment for the unknown id "t9" adds nothing to the rebuild. *)
Lemma buildRawFromSegments_dangling_witness :
  tokenMapOf blueSkyTokens !! str "t9" = None
  ∧ buildRawFromSegments [SegText (str "a "); SegToken (str "t9"); SegText (str " sky")]
      (tokenMapOf blueSkyTokens)
    = str "a  sky".
Proof.
  assert (tokenMapOf blueSkyTokens !! str "t9" = None) as Hm by reflexivity.
  split; [done|].
  exact (proj2 (buildRawFromSegments_dangling [SegText (str "a ")] (str "t9")
                  [SegText (str " sky")] (tokenMapOf blueSkyTokens) Hm)).
Defined.

(** ** The fallback extractor *)

Lemma foldl_related {A B X} (R : A → B → Prop) (f : A → X → A) (g : B → X → B) l :
  (∀ a b x, R a b → R (f a x) (g b x)) →
  ∀ a b, R a b → R (foldl f a l) (foldl g b l).
Proof.
  intros Hstep. induction l as [|x l IH]; intros a b Hab; [done|].
  simpl. by apply IH, Hstep.
Qed.

Section FallbackLaws.
Context {U : Unicode}.

Lemma pushToken_entries Date_now foundTokens g txt :
  entry <$> (pushToken Date_now (foundTokens, g) txt).1
  = (entry <$> foundTokens) ++ [(txt, getDefaultAlternatives txt)].
Proof.
  unfold pushToken. destruct (uid Date_now g) as [i g1].
  destruct (inferRole g1 txt) as [r g2]. simpl. by rewrite fmap_app.
Qed.

Lemma pushToken_related Date_now Date_now' (st st' : list Token * Globals) txt :
  entry <$> st.1 = entry <$> st'.1 →
  entry <$> (pushToken Date_now st txt).1 = entry <$> (pushToken Date_now' st' txt).1.
Proof.
  destruct st as [found g], st' as [found' g']. cbn [fst]. intros Heq.
  by rewrite !pushToken_entries, Heq.
Qed.

Lemma existsb_text (f : jsstring → bool) (found found' : list Token) :
  entry <$> found = entry <$> found' →
  existsb (λ token, f (text token)) found = existsb (λ token, f (text token)) found'.
Proof.
  revert found'. induction found as [|t found IH]; intros [|t' found']; try done.
  rewrite !fmap_cons. intros [= Htext _ Hrest]. simpl. by rewrite Htext, (IH found').
Qed.

(** The texts and alternatives of the result depend on the prompt only. *)
Lemma extractFallbackTokens_entries Date_now Date_now' g g' prompt :
  entry <$> (extractFallbackTokens Date_now g prompt).1
  = entry <$> (extractFallbackTokens Date_now' g' prompt).1.
Proof.
  unfold extractFallbackTokens.
  set (R := λ st st' : list Token * Globals, entry <$> st.1 = entry <$> st'.1).
  match goal with
  | |- context [foldl ?f2 (foldl ?f1 ([], g) ?l1) ?l2] =>
      match goal with
      | |- context [foldl ?g2 (foldl ?g1 ([], g') l1) l2] =>
          assert (R (foldl f2 (foldl f1 ([], g) l1) l2)
                    (foldl g2 (foldl g1 ([], g') l1) l2)) as Hrel
      end
  end.
  { apply foldl_related.
    - intros st st' word Hst. unfold R in *.
      rewrite (existsb_text (λ txt, includes (toLowerCase txt) word) _ _ Hst).
      destruct (negb _); [by apply pushToken_related | done].
    - apply foldl_related; [|done]. intros st st' term Hst.
      destruct (includes _ term); [by apply pushToken_related | done]. }
  destruct (foldl _ (foldl _ ([], g) _) _) as [found g1].
  destruct (foldl _ (foldl _ ([], g') _) _) as [found' g1'].
  unfold R in Hrel. simpl in *. by rewrite !fmap_take, Hrel.
Qed.

(** C9: the texts and alternatives of the fallback tokens are a function of
    the prompt, but the roles are not. On "cinematic", the first run from
    the initial state gives the role [mood]; it leaves [lastIndex] of the
    second rule at 9, so in the next run that rule fails and the role is
    [descriptor]. *)
Theorem extractFallbackTokens_roles_depend_on_state :
  (∀ Date_now Date_now' g g' prompt,
     entry <$> (extractFallbackTokens Date_now g prompt).1
     = entry <$> (extractFallbackTokens Date_now' g' prompt).1)
  ∧ ∀ Date_now,
      let run1 := extractFallbackTokens Date_now initialGlobals (str "cinematic") in
      let run2 := extractFallbackTokens Date_now run1.2 (str "cinematic") in
      text <$> run1.1 = [str "cinematic"] ∧ role <$> run1.1 = [mood]
      ∧ keywordLastIndex run1.2 = [0; 9; 0; 0]
      ∧ text <$> run2.1 = [str "cinematic"] ∧ role <$> run2.1 = [descriptor].
Proof.
  split; [apply extractFallbackTokens_entries|]. intros Date_now. vm_compute. done.
Qed.

End FallbackLaws.

(** ** Scenarios *)

(** "a blue sky" with the token "blue". *)
Example segmentPrompt_blue_sky {U : Unicode} :
  segmentPrompt (str "a blue sky") blueSkyTokens
  = [SegText (str "a "); SegToken (str "t1"); SegText (str " sky")].
Proof. by vm_compute. Qed.

(** The fallback extractor on "high quality portrait of a cat" finds the
    vocabulary terms "high quality" and "portrait", each with six
    alternatives. *)
Example extractFallbackTokens_portrait {U : Unicode} (Date_now : N → N) :
  entry <$> (extractFallbackTokens Date_now initialGlobals
               (str "high quality portrait of a cat")).1
  = [(str "high quality",
      AltsArray (str <$> ["premium"; "photoreal"; "film-grade"; "clean"; "polished";
                          "pristine"]%string));
     (str "portrait",
      AltsArray (str <$> ["headshot"; "close-up"; "bust"; "profile"; "three-quarter";
                          "candid"]%string))].
Proof. by vm_compute. Qed.

(** Why the reconstruction law asks for distinct ids: with two tokens under
    one id the map keeps the later one, and "cat dog" is rebuilt as
    "dog dog". *)
Example shared_id_rebuild {U : Unicode} :
  buildRawFromSegments (segmentPrompt (str "cat dog") sharedIdTokens)
    (tokenMapOf sharedIdTokens)
  = str "dog dog".
Proof. by vm_compute. Qed.

(** Why it asks for filler-free texts: "a-b" is rebuilt with the filler
    inserted after the hyphen. *)
Example filler_text_rebuild :
  buildRawFromSegments (segmentPrompt (U := plain_unicode) (str "a-b") fillerTokens)
    (tokenMapOf fillerTokens)
  = str "a-" ++ [filler] ++ str "b".
Proof. by vm_compute. Qed.

(** The later revision shares the defect: on "moody" the first run gives
    the role [mood] and the second the role [subject]. *)
Example later_revision_roles_depend_on_state {U : Unicode} (Date_now : N → N) :
  let run1 := Revision2.extractFallbackTokens Date_now Revision2.initialGlobals (str "moody") in
  let run2 := Revision2.extractFallbackTokens Date_now run1.2 (str "moody") in
  Revision2.text <$> run1.1 = [str "moody"]
  ∧ Revision2.role <$> run1.1 = [Revision2.mood]
  ∧ Revision2.text <$> run2.1 = [str "moody"]
  ∧ Revision2.role <$> run2.1 = [Revision2.subject].
Proof. by vm_compute. Qed.

(** States whose [raw] differs from the rebuild arise without any provider:
    the fallback tokens are lower-cased words, so for the prompt
    "Misty harbor" the segments rebuild to "misty harbor". *)
Example fallback_tokens_rebuild {U : Unicode} :
  let ts := (extractFallbackTokens (λ _, 1700000000000%N) initialGlobals
               (str "Misty harbor")).1 in
  text <$> ts = [str "misty"; str "harbor"]
  ∧ buildRawFromSegments (segmentPrompt (str "Misty harbor") ts) (tokenMapOf ts)
    = str "misty harbor".
Proof. by vm_compute. Qed.

(** ** More on the segments *)

Section Segments.
Context {U : Unicode}.

Lemma boundary_le (w : jsstring) i : boundary w i = true → i ≤ length w.
Proof.
  unfold boundary, word_at, word_before. intros Hb.
  destruct (decide (i ≤ length w)) as [|Hgt]; [done|]. exfalso.
  rewrite (lookup_ge_None_2 w i) in Hb by lia.
  destruct i as [|j]; [done|]. by rewrite (lookup_ge_None_2 w j) in Hb by lia.
Qed.

Lemma occurs_at_le txt w a : occurs_at txt w a = true → a ≤ length w.
Proof.
  unfold occurs_at. intros [[Hb _]%andb_prop _]%andb_prop. by apply boundary_le.
Qed.

Lemma placeToken_bounds n working pls t :
  length working = n → Forall (λ p, start p ≤ end_ p ≤ n) pls →
  length (placeToken (working, pls) t).1 = n
  ∧ Forall (λ p, start p ≤ end_ p ≤ n) (placeToken (working, pls) t).2.
Proof.
  intros Hlen Hpls.
  destruct (RegExp_exec (tokenPattern (text t)) working) as [[a b]|] eqn:Hexec.
  2: { by rewrite (placeToken_None _ _ _ Hexec). }
  rewrite (placeToken_Some _ _ _ _ _ Hexec). cbn [fst snd].
  pose proof (exec_token_Some _ _ _ _ Hexec) as (Hb & Ha & Hocc & _).
  pose proof (occurs_at_lookup _ _ _ Hocc Ha) as [Hle _].
  split; [rewrite length_redact; lia|].
  apply Forall_app. split; [done|]. constructor; [simpl; lia | constructor].
Qed.

Lemma recordPlacements_bounds raw ts :
  Forall (λ p, start p ≤ end_ p ≤ length raw) (recordPlacements raw ts).
Proof.
  unfold recordPlacements.
  assert (∀ toks working pls,
            length working = length raw →
            Forall (λ p, start p ≤ end_ p ≤ length raw) pls →
            Forall (λ p, start p ≤ end_ p ≤ length raw)
              (foldl placeToken (working, pls) toks).2) as Hfold.
  { induction toks as [|t toks IH]; intros working pls Hlen Hpls; [done|].
    cbn [foldl]. destruct (placeToken_bounds _ _ _ t Hlen Hpls) as [Hlen' Hpls'].
    destruct (placeToken (working, pls) t) as [working' pls']. by apply IH. }
  apply Hfold; [done | constructor].
Qed.

Lemma emitFrom_text_nonempty raw sp : ∀ cur v,
  Forall (λ p, start p ≤ length raw) sp →
  SegText v ∈ emitFrom raw cur sp → v ≠ [].
Proof.
  induction sp as [|p sp IH]; intros cur v Hsp; cbn [emitFrom].
  - destruct (Nat.ltb_spec cur (length raw)); [|by intros ?%elem_of_nil].
    intros [= ->]%list_elem_of_singleton. unfold slice_from.
    intros Hnil%(f_equal length). rewrite length_drop in Hnil. simpl in Hnil. lia.
  - apply Forall_cons in Hsp as [Hp Hsp]. rewrite elem_of_app, elem_of_cons.
    intros [Hin | [Heq | Hin]]; [| done | by eapply IH].
    destruct (Nat.ltb_spec cur (start p)); [|by apply elem_of_nil in Hin].
    apply list_elem_of_singleton in Hin as [= ->]. unfold slice.
    intros Hnil%(f_equal length). rewrite length_take, length_drop in Hnil.
    simpl in Hnil. lia.
Qed.

(** X1: the result is empty only for the empty string, and no text
    segment of any result is empty. *)
Theorem segmentPrompt_no_empty_text raw ts :
  (segmentPrompt raw ts = [] ↔ raw = [])
  ∧ ∀ v, SegText v ∈ segmentPrompt raw ts → v ≠ [].
Proof.
  destruct raw as [|c raw'].
  { split; [done|]. by intros v ?%elem_of_nil. }
  destruct ts as [|t0 ts'].
  { split; [done|]. by intros v [= ->]%list_elem_of_singleton. }
  set (raw := c :: raw') in *. set (ts := t0 :: ts') in *.
  rewrite segmentPrompt_emit by done. split.
  - split; [|done]. intros Hnil. exfalso.
    eapply emitFrom_nonempty; [|exact Hnil]. left. simpl. lia.
  - intros v. apply emitFrom_text_nonempty. rewrite sortPlacements_perm.
    eapply Forall_impl; [apply recordPlacements_bounds|]. intros p Hp. cbv beta in Hp. lia.
Qed.

Lemma tokenMapOf_lookup_Some (ts : list Token) i t :
  tokenMapOf ts !! i = Some t → t ∈ ts ∧ id t = i.
Proof.
  induction ts as [|x ts IH] using rev_ind; [done|].
  rewrite tokenMapOf_snoc. destruct (decide (id x = i)) as [<-|Hne].
  - rewrite lookup_insert_eq. intros [= <-]. split; [|done].
    apply elem_of_app. right. by left.
  - rewrite lookup_insert_ne by done. intros [Hin Hid]%IH. split; [|done].
    apply elem_of_app. by left.
Qed.

Lemma tokenMapOf_is_Some (ts : list Token) i :
  i ∈ id <$> ts → is_Some (tokenMapOf ts !! i).
Proof.
  destruct (tokenMapOf ts !! i) eqn:Hi; [by eexists|].
  intros Hin. exfalso. revert Hin Hi.
  induction ts as [|x ts IH] using rev_ind; [by intros ?%elem_of_nil|].
  rewrite tokenMapOf_snoc, fmap_app. destruct (decide (id x = i)) as [<-|Hne].
  - by rewrite lookup_insert_eq.
  - rewrite lookup_insert_ne by done. rewrite elem_of_app. simpl.
    intros [Hin | Hin%list_elem_of_singleton]; [by apply IH | done].
Qed.

Lemma elem_of_filter_length (l : list jsstring) i :
  i ∈ l ↔ 0 < length (filter (λ x, x = i) l).
Proof.
  split.
  - intros Hin. assert (i ∈ filter (λ x, x = i) l) as Hf by (by apply list_elem_of_filter).
    destruct (filter _ l); [by apply elem_of_nil in Hf | simpl; lia].
  - destruct (filter (λ x, x = i) l) as [|y l'] eqn:Hf; simpl; [lia|]. intros _.
    assert (y ∈ filter (λ x, x = i) l) as Hy by (rewrite Hf; by left).
    apply list_elem_of_filter in Hy as [-> Hy]. done.
Qed.

Lemma elem_of_tokenIds segs i : SegToken i ∈ segs → i ∈ tokenIds segs.
Proof.
  intros Hin. unfold tokenIds. apply list_elem_of_omap. by exists (SegToken i).
Qed.

(** X2: a token segment never dangles: its id is the id of a token of the
    list, and the token map built from the list resolves it. *)
Theorem segmentPrompt_references raw ts i :
  SegToken i ∈ segmentPrompt raw ts →
  ∃ t, tokenMapOf ts !! i = Some t ∧ t ∈ ts ∧ id t = i.
Proof.
  intros Hin%elem_of_tokenIds%elem_of_filter_length.
  assert (i ∈ id <$> ts) as Hid.
  { apply elem_of_filter_length.
    pose proof (tokenIds_segmentPrompt raw ts i). pose proof (recordPlacements_count raw ts i).
    lia. }
  destruct (tokenMapOf_is_Some ts i Hid) as [t Ht]. exists t. split; [done|].
  by apply tokenMapOf_lookup_Some.
Qed.

End Segments.

Lemma segmentPrompt_references_witness :
  SegToken (str "t1") ∈ segmentPrompt (U := plain_unicode) (str "a blue sky") blueSkyTokens
  ∧ ∃ t, tokenMapOf blueSkyTokens !! str "t1" = Some t ∧ t ∈ blueSkyTokens
         ∧ id t = str "t1".
Proof.
  assert (SegToken (str "t1")
          ∈ segmentPrompt (U := plain_unicode) (str "a blue sky") blueSkyTokens) as Hin.
  { change (SegToken (str "t1")
            ∈ [SegText (str "a "); SegToken (str "t1"); SegText (str " sky")]).
    apply list_elem_of_further, list_elem_of_here. }
  split; [done|].
  exact (segmentPrompt_references (U := plain_unicode) _ _ _ Hin).
Defined.

Section Precedence.
Context {U : Unicode}.

Lemma foldl_placeToken_prefix toks : ∀ working pls,
  ∃ new, (foldl placeToken (working, pls) toks).2 = pls ++ new.
Proof.
  induction toks as [|t toks IH]; intros working pls; cbn [foldl].
  - exists []. by rewrite app_nil_r.
  - destruct (RegExp_exec (tokenPattern (text t)) working) as [[a b]|] eqn:Hexec.
    + rewrite (placeToken_Some _ _ _ _ _ Hexec).
      destruct (IH (slice working 0 a ++ repeat1 filler (b - a) ++ slice_from working b)
                   (pls ++ [{| start := a; end_ := b; tokenId := id t |}])) as [new Hnew].
      rewrite Hnew, <- app_assoc. by eexists.
    + rewrite (placeToken_None _ _ _ Hexec). apply IH.
Qed.

Lemma sortTokens_cons x l :
  sortTokens (x :: l)
  = insertBy (λ a b, Z.of_nat (length (text b)) - Z.of_nat (length (text a)))%Z x
      (sortTokens l).
Proof. reflexivity. Qed.

(** The longest token, the first of its length, heads the sorted list. *)
Lemma sortTokens_longest l1 t l2 :
  Forall (λ t', length (text t') < length (text t)) l1 →
  Forall (λ t', length (text t') ≤ length (text t)) l2 →
  sortTokens (l1 ++ t :: l2) = t :: sortTokens (l1 ++ l2).
Proof.
  intros Hl1 Hl2. induction Hl1 as [|x l1 Hx Hl1 IH].
  - simpl app. rewrite sortTokens_cons.
    assert (Forall (λ t', length (text t') ≤ length (text t)) (sortTokens l2)) as Hs
      by (by rewrite sortTokens_perm).
    destruct (sortTokens l2) as [|y l']; [done|]. cbn [insertBy].
    apply Forall_cons in Hs as [Hy _].
    destruct (Z.ltb_spec 0 (Z.of_nat (length (text y)) - Z.of_nat (length (text t))));
      [lia | done].
  - change ((x :: l1) ++ t :: l2) with (x :: (l1 ++ t :: l2)).
    change ((x :: l1) ++ l2) with (x :: (l1 ++ l2)).
    rewrite !sortTokens_cons, IH. cbn [insertBy].
    destruct (Z.ltb_spec 0 (Z.of_nat (length (text t)) - Z.of_nat (length (text x))));
      [done | lia].
Qed.

Lemma tokenIds_segmentPrompt_perm raw ts :
  raw ≠ [] → ts ≠ [] →
  tokenIds (segmentPrompt raw ts) ≡ₚ tokenId <$> recordPlacements raw ts.
Proof.
  intros Hraw Hts. rewrite segmentPrompt_emit, tokenIds_emitFrom by done.
  by rewrite sortPlacements_perm.
Qed.

(** X3: longest-first precedence. A token that is at least as long as
    every other, and strictly longer than those listed before it, is
    placed on its first occurrence in [raw] whenever it occurs: that
    placement is the first one recorded, and the token is among the
    segments. *)
Theorem longest_token_placed_first raw l1 t l2 a :
  Forall (λ t', length (text t') < length (text t)) l1 →
  Forall (λ t', length (text t') ≤ length (text t)) l2 →
  occurs_at (text t) raw a = true →
  (∀ a', a' < a → occurs_at (text t) raw a' = false) →
  head (recordPlacements raw (l1 ++ t :: l2))
  = Some {| start := a; end_ := a + length (text t); tokenId := id t |}
  ∧ SegToken (id t) ∈ segmentPrompt raw (l1 ++ t :: l2).
Proof.
  intros Hl1 Hl2 Hocc Hmin.
  pose proof (occurs_at_le _ _ _ Hocc) as Ha.
  pose proof (exec_token_first _ _ _ Ha Hocc Hmin) as Hexec.
  assert (head (recordPlacements raw (l1 ++ t :: l2))
          = Some {| start := a; end_ := a + length (text t); tokenId := id t |}) as Hhead.
  { unfold recordPlacements. rewrite sortTokens_longest by done. cbn [foldl].
    rewrite (placeToken_Some _ _ _ _ _ Hexec).
    destruct (foldl_placeToken_prefix (sortTokens (l1 ++ l2))
                (slice raw 0 a ++ repeat1 filler (a + length (text t) - a)
                 ++ slice_from raw (a + length (text t)))
                ([] ++ [{| start := a; end_ := a + length (text t); tokenId := id t |}]))
      as [new Hnew].
    by rewrite Hnew. }
  split; [done|].
  assert (raw ≠ []) as Hraw.
  { intros ->. unfold occurs_at in Hocc. apply andb_prop in Hocc as [[Hb _]%andb_prop _].
    unfold boundary, word_before, word_at in Hb. by destruct a. }
  assert (id t ∈ tokenIds (segmentPrompt raw (l1 ++ t :: l2))) as Hin.
  { rewrite tokenIds_segmentPrompt_perm; [|done | by destruct l1].
    destruct (recordPlacements raw (l1 ++ t :: l2)) as [|p pls]; [done|].
    injection Hhead as ->. by left. }
  unfold tokenIds in Hin. apply list_elem_of_omap in Hin as (seg & Hseg & Hid).
  destruct seg as [v|i]; [done|]. by injection Hid as ->.
Qed.

(** X4: with a single token that occurs in [raw], the segments are the text
    before its first occurrence (if any), the token, and the text after it
    (if any). Later occurrences stay in that last text segment. *)
Theorem segmentPrompt_single_token raw t a :
  occurs_at (text t) raw a = true →
  (∀ a', a' < a → occurs_at (text t) raw a' = false) →
  segmentPrompt raw [t]
  = (if 0 <? a then [SegText (take a raw)] else [])
    ++ SegToken (id t)
    :: (if a + length (text t) <? length raw
        then [SegText (drop (a + length (text t)) raw)] else []).
Proof.
  intros Hocc Hmin.
  pose proof (occurs_at_le _ _ _ Hocc) as Ha.
  pose proof (exec_token_first _ _ _ Ha Hocc Hmin) as Hexec.
  assert (raw ≠ []) as Hraw.
  { intros ->. unfold occurs_at in Hocc. apply andb_prop in Hocc as [[Hb _]%andb_prop _].
    unfold boundary, word_before, word_at in Hb. by destruct a. }
  rewrite segmentPrompt_emit by done.
  assert (recordPlacements raw [t]
          = [{| start := a; end_ := a + length (text t); tokenId := id t |}]) as ->.
  { unfold recordPlacements. change (sortTokens [t]) with [t]. cbn [foldl].
    by rewrite (placeToken_Some _ _ _ _ _ Hexec). }
  change (sortPlacements [?p]) with [p]. cbn [emitFrom start end_ tokenId].
  unfold slice, slice_from. by rewrite drop_0, Nat.sub_0_r.
Qed.

End Precedence.

Lemma longest_token_placed_first_witness :
  occurs_at (U := plain_unicode) (text categoryToken) (str "a category") 2 = true
  ∧ (∀ a', a' < 2 → occurs_at (U := plain_unicode) (text categoryToken) (str "a category") a'
                     = false)
  ∧ head (recordPlacements (U := plain_unicode) (str "a category")
            [catToken; categoryToken])
    = Some {| start := 2; end_ := 10; tokenId := str "t2" |}
  ∧ SegToken (str "t2") ∈ segmentPrompt (U := plain_unicode) (str "a category")
                            [catToken; categoryToken].
Proof.
  assert (∀ a', a' < 2 → occurs_at (U := plain_unicode) (text categoryToken)
                          (str "a category") a' = false) as Hfirst.
  { intros [|[|a']] Ha'; [reflexivity | reflexivity | lia]. }
  split; [reflexivity|]. split; [exact Hfirst|].
  apply (longest_token_placed_first (U := plain_unicode) (str "a category")
           [catToken] categoryToken [] 2); [| | reflexivity | exact Hfirst].
  - apply Forall_singleton. simpl. lia.
  - apply Forall_nil_2.
Defined.

Lemma segmentPrompt_single_token_witness :
  occurs_at (U := plain_unicode) (text blueToken) (str "a blue sky and a blue sea") 2 = true
  ∧ (∀ a', a' < 2 → occurs_at (U := plain_unicode) (text blueToken)
                       (str "a blue sky and a blue sea") a' = false)
  ∧ segmentPrompt (U := plain_unicode) (str "a blue sky and a blue sea") [blueToken]
    = [SegText (str "a "); SegToken (str "t1"); SegText (str " sky and a blue sea")].
Proof.
  assert (∀ a', a' < 2 → occurs_at (U := plain_unicode) (text blueToken)
                          (str "a blue sky and a blue sea") a' = false) as Hfirst.
  { intros [|[|a']] Ha'; [reflexivity | reflexivity | lia]. }
  split; [reflexivity|]. split; [exact Hfirst|].
  exact (segmentPrompt_single_token (U := plain_unicode)
           (str "a blue sky and a blue sea") blueToken 2 eq_refl Hfirst).
Defined.

Section Soundness.
Context {U : Unicode}.

Lemma word_at_redact (w : jsstring) a b i :
  a ≤ b ≤ length w →
  word_at (slice w 0 a ++ repeat1 filler (b - a) ++ slice_from w b) i
  = if decide (a ≤ i < b) then false else word_at w i.
Proof.
  intros Hab. unfold word_at. rewrite lookup_redact by done. by case_decide.
Qed.

Lemma word_before_redact (w : jsstring) a b i :
  a ≤ b ≤ length w →
  word_before (slice w 0 a ++ repeat1 filler (b - a) ++ slice_from w b) i
  = if decide (a < i ≤ b) then false else word_before w i.
Proof.
  intros Hab. destruct i as [|j]; cbn [word_before].
  - by destruct (decide (a < 0 ≤ b)).
  - rewrite lookup_redact by done.
    destruct (decide (a ≤ j < b)), (decide (a < S j ≤ b)); (done || lia).
Qed.

(** Blanking a range whose two ends are word boundaries creates no new
    word boundary. *)
Lemma boundary_redact (w : jsstring) a b i :
  a ≤ b ≤ length w → boundary w a = true → boundary w b = true →
  boundary (slice w 0 a ++ repeat1 filler (b - a) ++ slice_from w b) i = true →
  boundary w i = true.
Proof.
  intros Hab Ha Hb.
  destruct (decide (i = a)) as [->|]; [done|].
  destruct (decide (i = b)) as [->|]; [done|].
  unfold boundary. rewrite word_at_redact, word_before_redact by done.
  destruct (decide (a ≤ i < b)), (decide (a < i ≤ b)); (done || lia).
Qed.

Lemma placeToken_boundaries raw working pls t :
  (∀ i, boundary working i = true → boundary raw i = true) →
  Forall (λ p, boundary raw (start p) = true ∧ boundary raw (end_ p) = true) pls →
  (∀ i, boundary (placeToken (working, pls) t).1 i = true → boundary raw i = true)
  ∧ Forall (λ p, boundary raw (start p) = true ∧ boundary raw (end_ p) = true)
      (placeToken (working, pls) t).2.
Proof.
  intros Hw Hpls.
  destruct (RegExp_exec (tokenPattern (text t)) working) as [[a b]|] eqn:Hexec.
  2: { by rewrite (placeToken_None _ _ _ Hexec). }
  rewrite (placeToken_Some _ _ _ _ _ Hexec). cbn [fst snd].
  pose proof (exec_token_Some _ _ _ _ Hexec) as (-> & Ha & Hocc & _).
  pose proof (occurs_at_lookup _ _ _ Hocc Ha) as [Hle _].
  unfold occurs_at in Hocc. apply andb_prop in Hocc as [[Hba _]%andb_prop Hbb].
  split.
  - intros i Hi. apply Hw. eapply boundary_redact; [| | |exact Hi]; (done || lia).
  - apply Forall_app. split; [done|]. constructor; [|constructor]. simpl. auto.
Qed.

Lemma recordPlacements_boundaries raw ts :
  Forall (λ p, boundary raw (start p) = true ∧ boundary raw (end_ p) = true)
    (recordPlacements raw ts).
Proof.
  unfold recordPlacements.
  assert (∀ toks working pls,
            (∀ i, boundary working i = true → boundary raw i = true) →
            Forall (λ p, boundary raw (start p) = true ∧ boundary raw (end_ p) = true) pls →
            Forall (λ p, boundary raw (start p) = true ∧ boundary raw (end_ p) = true)
              (foldl placeToken (working, pls) toks).2) as Hfold.
  { induction toks as [|t toks IH]; intros working pls Hw Hpls; [done|].
    cbn [foldl]. destruct (placeToken_boundaries raw _ _ t Hw Hpls) as [Hw' Hpls'].
    destruct (placeToken (working, pls) t) as [working' pls']. by apply IH. }
  apply Hfold; [done | constructor].
Qed.

(** X5: a placement always starts and ends on a word boundary of [raw]
    (not only of the working copy), and when no token text holds a character
    that matches the filler, its range is a word-bounded occurrence, up to
    case, of the text of a token with its id. *)
Theorem placements_are_occurrences raw ts :
  Forall (λ p, boundary raw (start p) = true ∧ boundary raw (end_ p) = true)
    (recordPlacements raw ts)
  ∧ (all_filler_free ts = true →
     Forall (λ p, ∃ t, t ∈ ts ∧ id t = tokenId p
                       ∧ end_ p = start p + length (text t)
                       ∧ occurs_at (text t) raw (start p) = true)
       (recordPlacements raw ts)).
Proof.
  split; [apply recordPlacements_boundaries|]. intros Hff.
  destruct (recordPlacements_inv raw ts Hff) as [working [_ _ Hpl _]].
  pose proof (recordPlacements_boundaries raw ts) as Hb.
  rewrite Forall_forall in Hpl, Hb. apply Forall_forall. intros p Hp.
  destruct (Hpl p Hp) as (_ & _ & t & Hin & Hid & Hend & Hm).
  destruct (Hb p Hp) as [Hs He].
  exists t. repeat split; [done..|]. unfold occurs_at.
  rewrite <- Hend, Hs, Hm, He. done.
Qed.

End Soundness.

(** ** What [replaceToken] does to [raw], and how edits compose *)

Lemma id_updateToken i x t : id (updateToken i x t) = id t.
Proof. unfold updateToken. by case_decide. Qed.

Lemma tokenMapOf_updateToken i x (ts : list Token) j :
  tokenMapOf (updateToken i x <$> ts) !! j = updateToken i x <$> (tokenMapOf ts !! j).
Proof.
  induction ts as [|t ts IH] using rev_ind; [done|].
  rewrite fmap_app. simpl. rewrite !tokenMapOf_snoc, id_updateToken.
  destruct (decide (id t = j)) as [<-|Hne].
  - by rewrite !lookup_insert_eq.
  - by rewrite !lookup_insert_ne.
Qed.

(** What a segment contributes once the token [i] has been given the text
    [x]: the new text for a segment of that token, what it contributed
    before for any other segment. *)
Lemma resolveSegment_updateToken i x (ts : list Token) seg :
  resolveSegment (tokenMapOf (updateToken i x <$> ts)) seg
  = match seg with
    | SegToken j =>
        if decide (j = i)
        then (if decide (i ∈ id <$> ts) then x else [])
        else resolveSegment (tokenMapOf ts) seg
    | SegText _ => resolveSegment (tokenMapOf ts) seg
    end.
Proof.
  destruct seg as [v|j]; [done|]. cbn [resolveSegment].
  rewrite tokenMapOf_updateToken. destruct (decide (j = i)) as [->|Hne].
  - case_decide as Hin.
    + destruct (tokenMapOf_is_Some ts i Hin) as [t Ht]. rewrite Ht. simpl.
      apply tokenMapOf_lookup_Some in Ht as [_ Hid]. unfold updateToken.
      by rewrite decide_True.
    + by rewrite tokenMapOf_lookup_None.
  - destruct (tokenMapOf ts !! j) as [t|] eqn:Ht; [|done]. simpl.
    apply tokenMapOf_lookup_Some in Ht as [_ Hid]. unfold updateToken.
    rewrite decide_False; [done | congruence].
Qed.

(** X6: after [replaceToken], [raw] is the concatenation of the segments
    in which every segment of the edited token contributes the new text
    (nothing if the id names no token), and every other segment contributes
    what it did before the edit. *)
Theorem replaceToken_raw st doc i x :
  promptDoc st = Some doc →
  raw <$> promptDoc (replaceToken st i x)
  = Some (concat ((λ seg,
                     match seg with
                     | SegToken j =>
                         if decide (j = i)
                         then (if decide (i ∈ id <$> tokens doc) then x else [])
                         else resolveSegment (tokenMapOf (tokens doc)) seg
                     | SegText value => value
                     end)
                  <$> segments st)).
Proof.
  intros Hdoc. rewrite (replaceToken_Some _ _ _ _ Hdoc). simpl. f_equal.
  unfold buildRawFromSegments. f_equal. apply list_fmap_ext. intros k seg _.
  rewrite resolveSegment_updateToken. by destruct seg.
Qed.

Lemma updateToken_same i x y t :
  updateToken i y (updateToken i x t) = updateToken i y t.
Proof.
  unfold updateToken. destruct (decide (id t = i)) as [Heq|Hne]; simpl.
  - by rewrite decide_True.
  - by rewrite decide_False.
Qed.

Lemma updateToken_comm i j x y t :
  i ≠ j →
  updateToken j y (updateToken i x t) = updateToken i x (updateToken j y t).
Proof.
  intros Hij. unfold updateToken.
  destruct (decide (id t = i)) as [Hi|Hi], (decide (id t = j)) as [Hj|Hj];
    cbn [setText id]; repeat case_decide; (done || congruence).
Qed.

Lemma replaceToken_twice st doc i x j y :
  promptDoc st = Some doc →
  replaceToken (replaceToken st i x) j y
  = {| promptDoc :=
         Some {| raw := buildRawFromSegments (segments st)
                          (tokenMapOf ((updateToken j y ∘ updateToken i x) <$> tokens doc));
                 tokens := (updateToken j y ∘ updateToken i x) <$> tokens doc |};
       segments := segments st;
       openTokenId := None |}.
Proof.
  intros Hdoc. rewrite (replaceToken_Some st doc) by done.
  erewrite replaceToken_Some by reflexivity. cbn [tokens segments].
  by rewrite <- list_fmap_compose.
Qed.

(** X7: edits of two different tokens commute, and of two edits of the same
    token the later one wins. *)
Theorem replaceToken_compose st i x j y :
  (i ≠ j → replaceToken (replaceToken st i x) j y = replaceToken (replaceToken st j y) i x)
  ∧ replaceToken (replaceToken st i x) i y = replaceToken st i y.
Proof.
  destruct (promptDoc st) as [doc|] eqn:Hdoc.
  2: { assert (∀ k z, replaceToken st k z = st) as Hid
         by (intros; unfold replaceToken; by rewrite Hdoc).
       by rewrite !Hid. }
  split.
  - intros Hij. rewrite !(replaceToken_twice _ doc) by done.
    by rewrite (list_fmap_ext (updateToken j y ∘ updateToken i x)
                  (updateToken i x ∘ updateToken j y) (tokens doc))
      by (intros; by apply updateToken_comm).
  - rewrite (replaceToken_twice _ doc) by done.
    rewrite (list_fmap_ext (updateToken i y ∘ updateToken i x) (updateToken i y) (tokens doc))
      by (intros; apply updateToken_same).
    by rewrite (replaceToken_Some _ doc).
Qed.

(** X8: in a consistent state with distinct ids, editing a token and then
    giving it its former text back restores the document. *)
Theorem replaceToken_undo st doc t x :
  promptDoc st = Some doc → consistent st → NoDup (id <$> tokens doc) → t ∈ tokens doc →
  promptDoc (replaceToken (replaceToken st (id t) x) (id t) (text t)) = Some doc.
Proof.
  intros Hdoc Hcons Hnd Hin. unfold consistent in Hcons. rewrite Hdoc in Hcons.
  rewrite (replaceToken_twice _ doc) by done. cbn [promptDoc].
  rewrite (list_fmap_ext (updateToken (id t) (text t) ∘ updateToken (id t) x)
             (updateToken (id t) (text t)) (tokens doc))
    by (intros; apply updateToken_same).
  rewrite updateToken_own by done. rewrite <- Hcons. by destruct doc.
Qed.

Lemma replaceToken_undo_witness :
  promptDoc blueSkyState = Some {| raw := str "a blue sky"; tokens := blueSkyTokens |}
  ∧ consistent blueSkyState
  ∧ promptDoc (replaceToken (replaceToken blueSkyState (str "t1") (str "azure"))
                 (str "t1") (str "blue"))
    = promptDoc blueSkyState.
Proof.
  assert (consistent blueSkyState) as Hcons by reflexivity.
  assert (NoDup (id <$> blueSkyTokens)) as Hnd by (apply NoDup_singleton).
  split; [done|]. split; [done|].
  refine (replaceToken_undo blueSkyState _
            {| id := str "t1"; text := str "blue"; role := descriptor;
               alts := AltsArray [str "azure"] |} (str "azure") eq_refl Hcons Hnd _).
  by apply list_elem_of_singleton.
Defined.

Lemma replaceToken_raw_witness :
  promptDoc blueSkyState = Some {| raw := str "a blue sky"; tokens := blueSkyTokens |}
  ∧ raw <$> promptDoc (replaceToken blueSkyState (str "t1") (str "azure"))
    = Some (str "a azure sky").
Proof.
  split; [done|].
  exact (replaceToken_raw blueSkyState _ (str "t1") (str "azure") eq_refl).
Defined.

(** ** Token ids *)

Lemma str_inj (s1 s2 : string) : str s1 = str s2 → s1 = s2.
Proof.
  unfold str. intros Heq.
  rewrite <- (string_of_list_ascii_of_string s1), <- (string_of_list_ascii_of_string s2).
  f_equal. revert Heq. generalize (list_ascii_of_string s1) (list_ascii_of_string s2).
  induction l as [|a l IH]; intros [|b l']; simpl; try done.
  intros [= Hab Hl]. f_equal; [|by apply IH].
  by rewrite <- (ascii_N_embedding a), <- (ascii_N_embedding b), Hab.
Qed.

Lemma decimal_inj n m : decimal n = decimal m → n = m.
Proof.
  unfold decimal. intros Heq%str_inj. apply DecimalN.Unsigned.to_uint_inj.
  assert (∀ k, N.to_uint k ≠ Decimal.Nil) as Hnil.
  { intros [|p]; [done | apply DecimalPos.Unsigned.to_uint_nonnil]. }
  pose proof (NilZero.usu _ (Hnil n)) as Hn. pose proof (NilZero.usu _ (Hnil m)) as Hm.
  rewrite Heq in Hn. congruence.
Qed.

Lemma digits_string_of_uint d :
  Forall (λ c, (48 ≤ c ≤ 57)%N) (str (NilEmpty.string_of_uint d)).
Proof. induction d; simpl; constructor; (done || lia). Qed.

Lemma decimal_digits n : Forall (λ c, (48 ≤ c ≤ 57)%N) (decimal n).
Proof.
  unfold decimal, NilZero.string_of_uint.
  destruct (N.to_uint n) as [|d|d|d|d|d|d|d|d|d|d].
  1: { change (str "0") with [48%N]. constructor; [lia | constructor]. }
  all: apply digits_string_of_uint.
Qed.

Lemma hyphen_not_decimal n : 45%N ∉ decimal n.
Proof.
  intros Hin. pose proof (decimal_digits n) as Hd. rewrite Forall_forall in Hd.
  apply Hd in Hin. lia.
Qed.

Lemma app_cons_split {A} (x : A) l1 r1 l2 r2 :
  x ∉ l1 → x ∉ l2 → l1 ++ x :: r1 = l2 ++ x :: r2 → l1 = l2 ∧ r1 = r2.
Proof.
  revert l2. induction l1 as [|a l1 IH]; intros [|b l2] H1 H2; simpl.
  - by intros [= ->].
  - intros [= -> _]. exfalso. apply H2. by left.
  - intros [= -> _]. exfalso. apply H1. by left.
  - intros [= -> Heq]. apply not_elem_of_cons in H1 as [_ H1].
    apply not_elem_of_cons in H2 as [_ H2].
    destruct (IH l2 H1 H2 Heq) as [-> ->]. done.
Qed.

(** Two ids are equal only when they were made at the same counter value,
    whatever the clock said. *)
Lemma idOf_inj Date_now Date_now' n m : idOf Date_now n = idOf Date_now' m → n = m.
Proof.
  unfold idOf. intros Heq%app_inv_head.
  change (str "-" ++ ?d) with (45%N :: d) in Heq.
  apply app_cons_split in Heq as [_ Heq]; [by apply decimal_inj | apply hyphen_not_decimal..].
Qed.

Lemma uid_idOf Date_now g :
  uid Date_now g
  = (idOf Date_now (idCounter g + 1),
     {| idCounter := idCounter g + 1; keywordLastIndex := keywordLastIndex g |}).
Proof. reflexivity. Qed.

(** ** What the fallback extractor returns *)

Lemma starts_with_app needle s :
  starts_with needle s = true ↔ ∃ post, s = needle ++ post.
Proof.
  revert s. induction needle as [|a needle IH]; intros s; simpl.
  - split; [by exists s | done].
  - destruct s as [|b s]; [split; [done | by intros [post ?]]|].
    rewrite andb_true_iff, N.eqb_eq, IH. split.
    + intros [-> [post ->]]. by exists post.
    + intros [post [= -> ->]]. split; [done | by exists post].
Qed.

Lemma includes_infix s needle :
  includes s needle = true ↔ ∃ pre post, s = pre ++ needle ++ post.
Proof.
  induction s as [|c s IH]; simpl; rewrite orb_true_iff, starts_with_app.
  - split.
    + intros [[post Hpost] | ?]; [|done]. by exists [], post.
    + intros ([|? pre] & post & Heq); [|done]. left. by exists post.
  - rewrite IH. split.
    + intros [[post Hpost] | (pre & post & ->)]; [by exists [], post|].
      by exists (c :: pre), post.
    + intros ([|c' pre] & post & Heq); [left; by exists post|].
      injection Heq as -> ->. right. by exists pre, post.
Qed.

Lemma includes_refl s : includes s s = true.
Proof. apply includes_infix. exists [], []. by rewrite app_nil_r. Qed.

(** Every piece of [split(/\s+/)] is a part of the string. *)
Lemma splitWhiteSpace_infix s : ∀ inSep cur p,
  (inSep = true → cur = []) →
  p ∈ splitWhiteSpace inSep cur s → ∃ pre post, cur ++ s = pre ++ p ++ post.
Proof.
  induction s as [|c s IH]; intros inSep cur p Hsep; cbn [splitWhiteSpace].
  - intros ->%list_elem_of_singleton. exists [], []. by rewrite !app_nil_r.
  - destruct (is_white_space c).
    + destruct inSep.
      * rewrite (Hsep eq_refl). intros (pre & post & Heq)%IH; [|done].
        exists (c :: pre), post. simpl in *. by rewrite Heq.
      * rewrite elem_of_cons. intros [-> | (pre & post & Heq)%IH]; [|  |done].
        -- by exists [], (c :: s).
        -- exists (cur ++ c :: pre), post. simpl in Heq. rewrite Heq.
           by rewrite <- app_assoc.
    + intros (pre & post & Heq)%IH; [|done]. exists pre, post.
      by rewrite <- Heq, <- app_assoc.
Qed.

Lemma foldl_invariant {A X} (P : A → Prop) (f : A → X → A) l :
  (∀ a x, x ∈ l → P a → P (f a x)) → ∀ a, P a → P (foldl f a l).
Proof.
  induction l as [|x l IH]; intros Hstep a Ha; [done|]. simpl.
  apply IH; [|apply Hstep; [by left | done]].
  intros a' x' Hx'. apply Hstep. by right.
Qed.

Section FallbackResult.
Context {U : Unicode}.
Variable Date_now : N → N.

Lemma inferRole_idCounter g txt : idCounter (inferRole g txt).2 = idCounter g.
Proof.
  unfold inferRole. destruct (testKeywordRoles _ _ _) as [[r|] li]; [done|].
  by repeat destruct (_ || _); repeat destruct (RegExp_test _ _).
Qed.

Lemma pushToken_spec foundTokens g txt :
  ∃ t g',
    pushToken Date_now (foundTokens, g) txt = (foundTokens ++ [t], g')
    ∧ id t = idOf Date_now (idCounter g + 1) ∧ text t = txt
    ∧ idCounter g' = (idCounter g + 1)%N.
Proof.
  unfold pushToken. rewrite uid_idOf.
  pose proof (inferRole_idCounter
                {| idCounter := idCounter g + 1; keywordLastIndex := keywordLastIndex g |}
                txt) as Hc.
  destruct (inferRole _ txt) as [r g2]. eexists _, _. split; [done|]. by repeat split.
Qed.


Lemma pushToken_fresh c0 st txt :
  freshIds Date_now c0 st → freshIds Date_now c0 (pushToken Date_now st txt).
Proof.
  destruct st as [found g]. intros (ks & Hids & Hks & Hnd & Hc0). cbn [fst snd] in *.
  destruct (pushToken_spec found g txt) as (t & g' & -> & Hid & _ & Hc).
  exists (ks ++ [(idCounter g + 1)%N]). cbn [fst snd]. rewrite !fmap_app, Hids, Hc. simpl.
  rewrite Hid. split; [done|]. split; [|split; [|lia]].
  - apply Forall_app. split; [|constructor; [lia | constructor]].
    eapply Forall_impl; [exact Hks|]. intros k Hk. simpl in Hk. lia.
  - apply NoDup_app. split; [done|]. split; [|apply NoDup_singleton].
    intros k Hk ->%list_elem_of_singleton. rewrite Forall_forall in Hks.
    apply Hks in Hk. lia.
Qed.

Lemma freshIds_NoDup c0 st : freshIds Date_now c0 st → NoDup (id <$> st.1).
Proof.
  intros (ks & -> & _ & Hnd & _). apply NoDup_fmap_2; [|done].
  intros n m. apply idOf_inj.
Qed.

Lemma extractFallbackTokens_fresh g prompt :
  ∃ found g',
    extractFallbackTokens Date_now g prompt = (take 8 found, g')
    ∧ freshIds Date_now (idCounter g) (found, g').
Proof.
  unfold extractFallbackTokens.
  match goal with
  | |- context [foldl ?f2 (foldl ?f1 ([], g) ?l1) ?l2] =>
      assert (freshIds Date_now (idCounter g) (foldl f2 (foldl f1 ([], g) l1) l2)) as Hfresh
  end.
  { apply foldl_invariant.
    - intros st word _ Hst. destruct (negb _); [by apply pushToken_fresh | done].
    - apply foldl_invariant.
      + intros st term _ Hst. destruct (includes _ term); [by apply pushToken_fresh | done].
      + exists []. cbn [fst snd]. split; [done|]. split; [constructor|].
        split; [constructor | done]. }
  destruct (foldl _ (foldl _ ([], g) _) _) as [found g']. by exists found, g'.
Qed.

(** X9: the tokens of one run of the fallback extractor have pairwise
    distinct ids, none of which can be an id made before the run: each was
    made at a counter value above the one the run started from. *)
Theorem extractFallbackTokens_ids g prompt :
  NoDup (id <$> (extractFallbackTokens Date_now g prompt).1)
  ∧ ∀ t, t ∈ (extractFallbackTokens Date_now g prompt).1 →
         ∀ Date_now' n, (n ≤ idCounter g)%N → id t ≠ idOf Date_now' n.
Proof.
  destruct (extractFallbackTokens_fresh g prompt) as (found & g' & -> & Hfresh).
  cbn [fst]. split.
  - rewrite fmap_take. eapply sublist_NoDup; [|apply sublist_take].
    by apply (freshIds_NoDup _ _ Hfresh).
  - destruct Hfresh as (ks & Hids & Hks & _). cbn [fst snd] in *.
    intros t Ht Date_now' n Hn Heq.
    assert (id t ∈ idOf Date_now <$> ks) as Hin.
    { rewrite <- Hids. apply list_elem_of_fmap. exists t. split; [done|].
      apply elem_of_take in Ht as (k & Hk & _). by eapply list_elem_of_lookup_2. }
    apply list_elem_of_fmap in Hin as (k & Hk & Hin). rewrite Forall_forall in Hks.
    apply Hks in Hin. rewrite Heq in Hk. apply idOf_inj in Hk. lia.
Qed.

End FallbackResult.

(** ** Texts of the fallback tokens *)

Section FallbackTexts.
Context {U : Unicode}.
Variable Date_now : N → N.

Lemma pushToken_texts st txt :
  text <$> (pushToken Date_now st txt).1 = (text <$> st.1) ++ [txt].
Proof.
  destruct st as [found g]. destruct (pushToken_spec Date_now found g txt)
    as (t & g' & -> & _ & Ht & _).
  cbn [fst]. by rewrite fmap_app, <- Ht.
Qed.

Lemma vocabulary_loop_texts lowered terms : ∀ st,
  text <$> (foldl (λ st term, if includes lowered term then pushToken Date_now st term
                              else st) st terms).1
  = (text <$> st.1) ++ filter (λ term, includes lowered term = true) terms.
Proof.
  induction terms as [|term terms IH]; intros st; simpl; [by rewrite app_nil_r|].
  rewrite IH, filter_cons. destruct (includes lowered term) eqn:Hinc.
  - rewrite pushToken_texts, decide_True by done. by rewrite <- app_assoc.
  - by rewrite decide_False by done.
Qed.

Lemma word_loop_texts words : ∀ st,
  ∃ ws, text <$> (foldl (λ st word,
                           if negb (existsb (λ token, includes (toLowerCase (text token)) word)
                                      st.1)
                           then pushToken Date_now st word else st) st words).1
        = (text <$> st.1) ++ ws
        ∧ ws `sublist_of` words.
Proof.
  induction words as [|word words IH]; intros st; simpl.
  - exists []. by rewrite app_nil_r.
  - destruct (negb _).
    + destruct (IH (pushToken Date_now st word)) as (ws & -> & Hws).
      exists (word :: ws). rewrite pushToken_texts, <- app_assoc.
      split; [done | by constructor].
    + destruct (IH st) as (ws & -> & Hws). exists ws. split; [done | by constructor].
Qed.

(** X10: the texts of the fallback tokens are the vocabulary terms
    contained in the lower-cased prompt, in the order of the table, followed
    by at most six significant words of the lower-cased prompt in their
    order, cut to eight; so every text is contained in the lower-cased
    prompt. *)
Theorem extractFallbackTokens_texts g prompt :
  (∃ ws,
     text <$> (extractFallbackTokens Date_now g prompt).1
     = take 8 (filter (λ term, includes (toLowerCase prompt) term = true) commonTerms ++ ws)
     ∧ ws `sublist_of`
         take 6 (filter (λ w, significant w = true)
                   (splitWhiteSpace false [] (toLowerCase prompt))))
  ∧ length (extractFallbackTokens Date_now g prompt).1 ≤ 8
  ∧ ∀ t, t ∈ (extractFallbackTokens Date_now g prompt).1 →
         includes (toLowerCase prompt) (text t) = true.
Proof.
  unfold extractFallbackTokens.
  match goal with
  | |- context [foldl ?f2 (foldl ?f1 ([], g) ?l1) ?l2] =>
      destruct (word_loop_texts l2 (foldl f1 ([], g) l1)) as (ws & Htexts & Hws)
  end.
  rewrite vocabulary_loop_texts in Htexts. cbn [fst fmap list_fmap app] in Htexts.
  destruct (foldl _ (foldl _ ([], g) _) _) as [found g']. cbn [fst] in *.
  split; [exists ws; by rewrite fmap_take, Htexts|].
  split; [rewrite length_take; lia|].
  intros t Ht.
  assert (text t ∈ filter (λ term, includes (toLowerCase prompt) term = true) commonTerms
                    ++ ws) as Hin.
  { rewrite <- Htexts. apply list_elem_of_fmap. exists t. split; [done|].
    apply elem_of_take in Ht as (k & Hk & _). by eapply list_elem_of_lookup_2. }
  apply elem_of_app in Hin as [Hin | Hin].
  - by apply list_elem_of_filter in Hin as [Hinc _].
  - eapply elem_of_sublist in Hin; [|exact Hws].
    apply elem_of_take in Hin as (k & Hk & _). apply list_elem_of_lookup_2 in Hk.
    apply list_elem_of_filter in Hk as [_ Hk].
    apply splitWhiteSpace_infix in Hk as (pre & post & Heq); [|done].
    apply includes_infix. by exists pre, post.
Qed.

End FallbackTexts.

(** ** The fallback extractor on an ASCII prompt *)

Section FallbackAscii.
Context {U : Unicode}.
Variable Date_now : N → N.

Lemma lowerAscii_toLowerCase s : lowerAscii s = true → toLowerCase s = s.
Proof.
  intros Hs. unfold toLowerCase.
  assert (forallb is_ascii s = true ∧ ascii_lower <$> s = s) as [-> Hmap]; [|done].
  induction s as [|c s IH]; [done|]. simpl in Hs.
  apply andb_true_iff in Hs as [Hc Hs]. apply andb_true_iff in Hc as [Hc1 Hc2].
  destruct (IH Hs) as [IH1 IH2]. apply N.eqb_eq in Hc2.
  rewrite fmap_cons, IH2, Hc2. cbn [forallb]. unfold is_ascii at 1. by rewrite Hc1, IH1.
Qed.

Lemma ascii_lower_idem c :
  (c < 128)%N → (ascii_lower c < 128)%N ∧ ascii_lower (ascii_lower c) = ascii_lower c.
Proof.
  intros Hc. unfold ascii_lower.
  destruct (N.leb_spec 65 c), (N.leb_spec c 90); cbn [andb];
    repeat match goal with
           | |- context [(?a <=? ?b)%N] => destruct (N.leb_spec a b); cbn [andb]
           end; lia.
Qed.

Lemma toLowerCase_lowerAscii s : forallb is_ascii s = true → lowerAscii (toLowerCase s) = true.
Proof.
  intros Hs. unfold toLowerCase. rewrite Hs. clear U. unfold lowerAscii.
  induction s as [|c s IH]; [done|]. cbn [forallb] in Hs.
  apply andb_true_iff in Hs as [Hc Hs]. rewrite fmap_cons. cbn [forallb].
  rewrite (IH Hs), andb_true_r. apply N.ltb_lt, ascii_lower_idem in Hc as [Hlt Heq].
  apply andb_true_iff. split; [by apply N.ltb_lt | by apply N.eqb_eq].
Qed.

Lemma lowerAscii_infix s pre p post :
  s = pre ++ p ++ post → lowerAscii s = true → lowerAscii p = true.
Proof.
  intros ->. unfold lowerAscii. rewrite !forallb_app, !andb_true_iff. tauto.
Qed.

Lemma lowerAscii_filler_free t : lowerAscii (text t) = true → filler_free t = true.
Proof.
  unfold filler_free, lowerAscii. rewrite !forallb_forall. intros Hs c Hc.
  apply Hs, andb_true_iff in Hc as [Hc _]. apply N.ltb_lt in Hc.
  apply negb_true_iff. unfold ci_eq. rewrite N.eqb_sym. by apply ci_eq_filler_ascii.
Qed.

Lemma vocabulary_loop_distinct lowered g :
  distinctLower (foldl (λ st term, if includes lowered term then pushToken Date_now st term
                                   else st) ([], g) commonTerms).
Proof.
  pose proof (vocabulary_loop_texts Date_now lowered commonTerms ([], g)) as Htexts.
  cbn [fst fmap list_fmap app] in Htexts. split.
  - rewrite Htexts. apply NoDup_filter. apply (bool_decide_unpack _). by vm_compute.
  - apply Forall_forall. intros t Ht.
    assert (text t ∈ commonTerms) as Hin.
    { eapply (list_elem_of_filter _ _ (text t)). rewrite <- Htexts.
      apply list_elem_of_fmap. by exists t. }
    apply list_elem_of_In in Hin. revert Hin. generalize (text t).
    apply forallb_forall. by vm_compute.
Qed.

Lemma word_step_distinct st word :
  lowerAscii word = true → distinctLower st →
  distinctLower (if negb (existsb (λ token, includes (toLowerCase (text token)) word) st.1)
                 then pushToken Date_now st word else st).
Proof.
  intros Hword [Hnd Hlow]. destruct (negb _) eqn:Hsome; [|done].
  apply negb_true_iff in Hsome. split.
  - rewrite pushToken_texts. apply NoDup_app. split; [done|].
    split; [|apply NoDup_singleton].
    intros x Hx ->%list_elem_of_singleton.
    apply list_elem_of_fmap in Hx as (t & -> & Ht).
    assert (existsb (λ token, includes (toLowerCase (text token)) (text t)) st.1 = true)
      as Hex; [|congruence].
    apply existsb_exists. exists t. split; [by apply list_elem_of_In|].
    rewrite Forall_forall in Hlow. rewrite lowerAscii_toLowerCase by by apply Hlow.
    apply includes_refl.
  - destruct st as [found g].
    destruct (pushToken_spec Date_now found g word) as (t & g' & -> & _ & Ht & _).
    cbn [fst] in *. apply Forall_app. split; [done|]. apply Forall_singleton.
    by rewrite Ht.
Qed.

Lemma extractFallbackTokens_distinct g prompt :
  forallb is_ascii prompt = true →
  NoDup (text <$> (extractFallbackTokens Date_now g prompt).1)
  ∧ Forall (λ t, lowerAscii (text t) = true) (extractFallbackTokens Date_now g prompt).1.
Proof.
  intros Hascii. apply toLowerCase_lowerAscii in Hascii.
  unfold extractFallbackTokens.
  match goal with
  | |- context [foldl ?f2 (foldl ?f1 ([], g) ?l1) ?l2] =>
      assert (distinctLower (foldl f2 (foldl f1 ([], g) l1) l2)) as [Hnd Hlow]
  end.
  { apply foldl_invariant; [|apply vocabulary_loop_distinct].
    intros st word Hword Hst. apply word_step_distinct; [|done].
    apply elem_of_take in Hword as (k & Hk & _). apply list_elem_of_lookup_2 in Hk.
    apply list_elem_of_filter in Hk as [_ Hk].
    apply splitWhiteSpace_infix in Hk as (pre & post & Heq); [|done].
    by eapply lowerAscii_infix. }
  destruct (foldl _ (foldl _ ([], g) _) _) as [found g']. cbn [fst] in *. split.
  - rewrite fmap_take. eapply sublist_NoDup; [done | apply sublist_take].
  - by apply Forall_take.
Qed.

Lemma rebuild_up_to_case raw (ts : list Token) :
  NoDup (id <$> ts) → all_filler_free ts = true →
  Canonicalize <$> buildRawFromSegments (segmentPrompt raw ts) (tokenMapOf ts)
  = Canonicalize <$> raw.
Proof.
  intros Hnd Hff. destruct raw as [|c raw']; [done|]. destruct ts as [|t0 ts'].
  { unfold buildRawFromSegments. simpl. by rewrite app_nil_r. }
  set (raw := c :: raw') in *. set (ts := t0 :: ts') in *.
  rewrite segmentPrompt_emit by done.
  destruct (recordPlacements_inv raw ts Hff) as [working Hinv].
  rewrite build_emitFrom; [done | | |].
  - apply sortPlacements_chained; [apply Hinv | by eapply pass_inv_wf].
  - apply Forall_forall. intros; lia.
  - destruct Hinv as [_ _ Hpl _]. rewrite sortPlacements_perm.
    eapply Forall_impl; [exact Hpl|]. intros p (Hse & _ & t & Hin & Hid & _ & Hm).
    split; [lia|]. exists t. split; [|done]. rewrite <- Hid.
    by apply tokenMapOf_lookup.
Qed.

(** X11: on an ASCII prompt the fallback extractor returns tokens with
    pairwise distinct texts, none holding a character that matches the
    filler; segmenting the prompt by them, as the suggestion handler does,
    gives segments that read back as the prompt up to letter case. *)
Theorem extractFallbackTokens_segments g prompt :
  forallb is_ascii prompt = true →
  let ts := (extractFallbackTokens Date_now g prompt).1 in
  NoDup (text <$> ts)
  ∧ all_filler_free ts = true
  ∧ Canonicalize <$> buildRawFromSegments (segmentPrompt prompt ts) (tokenMapOf ts)
    = Canonicalize <$> prompt.
Proof.
  intros Hascii ts. destruct (extractFallbackTokens_distinct g prompt Hascii) as [Hnd Hlow].
  fold ts in Hnd, Hlow.
  assert (all_filler_free ts = true) as Hff.
  { apply forallb_forall. intros t Ht%list_elem_of_In. rewrite Forall_forall in Hlow.
    by apply lowerAscii_filler_free, Hlow. }
  split; [done|]. split; [done|]. apply rebuild_up_to_case; [|done].
  subst ts. destruct (extractFallbackTokens_fresh Date_now g prompt)
    as (found & g' & -> & Hfresh).
  cbn [fst]. rewrite fmap_take. eapply sublist_NoDup; [|apply sublist_take].
  by apply (freshIds_NoDup _ _ _ Hfresh).
Qed.

End FallbackAscii.

Lemma extractFallbackTokens_segments_witness :
  forallb is_ascii sailorPrompt = true
  ∧ text <$> sailorTokens = [str "dramatic"; str "portrait"; str "sailor"]
  ∧ NoDup (text <$> sailorTokens)
  ∧ all_filler_free (U := plain_unicode) sailorTokens = true
  ∧ Canonicalize (U := plain_unicode)
      <$> buildRawFromSegments (segmentPrompt (U := plain_unicode) sailorPrompt sailorTokens)
            (tokenMapOf sailorTokens)
    = Canonicalize (U := plain_unicode) <$> sailorPrompt.
Proof.
  split; [reflexivity|]. split; [by vm_compute|].
  exact (extractFallbackTokens_segments (U := plain_unicode) (λ _, 1700000000000%N)
           initialGlobals sailorPrompt eq_refl).
Defined.

(** ** [escapeRegExp] *)

Lemma parseLiteralPattern_escaped txt rest :
  parseLiteralPattern (escapeRegExp txt ++ rest)
  = (λ atoms, (Chr <$> txt) ++ atoms) <$> parseLiteralPattern rest.
Proof.
  unfold escapeRegExp. induction txt as [|c txt IH].
  - simpl. by destruct (parseLiteralPattern rest).
  - rewrite !fmap_cons. cbn [concat]. rewrite <- app_assoc.
    destruct (isSyntaxCharacter c) eqn:Hc.
    + cbn [app parseLiteralPattern]. rewrite Hc.
      assert ((c =? 98)%N = false) as ->.
      { apply N.eqb_neq. intros ->. by vm_compute in Hc. }
      rewrite IH. by destruct (parseLiteralPattern rest).
    + cbn [app parseLiteralPattern]. rewrite Hc.
      assert ((c =? 92)%N = false) as ->.
      { apply N.eqb_neq. intros ->. by vm_compute in Hc. }
      rewrite IH. by destruct (parseLiteralPattern rest).
Qed.

(** X12: the source [segmentPrompt] hands to the regular expression
    constructor, [\b], the escaped text and [\b], reads as a pattern that is
    exactly the token pattern of the text: a word boundary, one literal per
    code unit of the text, a word boundary. Whatever the text holds, none of
    its characters is read as an operator. *)
Theorem escapeRegExp_literal txt :
  (λ alt, [alt]) <$> parseLiteralPattern (tokenPatternSource txt) = Some (tokenPattern txt).
Proof.
  unfold tokenPatternSource, tokenPattern.
  change (str "\b" ++ escapeRegExp txt ++ str "\b")
    with (92%N :: 98%N :: (escapeRegExp txt ++ [92%N; 98%N])).
  cbn [parseLiteralPattern]. change (92 =? 92)%N with true. change (98 =? 98)%N with true.
  cbn iota. by rewrite parseLiteralPattern_escaped.
Qed.

(** ** The API key form *)



Lemma trimStart_suffix s : ∃ pre, s = pre ++ trimStart s.
Proof.
  induction s as [|c s [pre IH]]; [by exists []|]. simpl.
  destruct (is_white_space c); [|by exists []].
  exists (c :: pre). simpl. by rewrite <- IH.
Qed.

Lemma trimStart_head s c r : trimStart s = c :: r → is_white_space c = false.
Proof.
  induction s as [|d s IH]; [done|]. simpl.
  destruct (is_white_space d) eqn:Hd; [done|]. by intros [= <- _].
Qed.

Lemma trimStart_id s : (∀ c r, s = c :: r → is_white_space c = false) → trimStart s = s.
Proof. destruct s as [|c s]; [done|]. intros Hs. simpl. by rewrite (Hs c s). Qed.

Lemma trim_idem s : trim (trim s) = trim s.
Proof.
  unfold trim, trimEnd.
  assert (trimStart (reverse (trimStart (reverse (trimStart s))))
          = reverse (trimStart (reverse (trimStart s)))) as ->.
  { apply trimStart_id. intros c r Hc.
    destruct (trimStart_suffix (reverse (trimStart s))) as [pre Hpre].
    apply (f_equal reverse) in Hpre. rewrite reverse_involutive, reverse_app, Hc in Hpre.
    by eapply trimStart_head. }
  rewrite reverse_involutive. f_equal. apply trimStart_id. intros c r Hc.
  by eapply trimStart_head.
Qed.

Lemma keyStep_valid k0 f a :
  apiKey f = k0 ∨ apiKey f = []
  ∨ validateApiKey (apiKey f) = true ∧ trim (apiKey f) = apiKey f →
  apiKey (keyStep f a) = k0 ∨ apiKey (keyStep f a) = []
  ∨ validateApiKey (apiKey (keyStep f a)) = true
    ∧ trim (apiKey (keyStep f a)) = apiKey (keyStep f a).
Proof.
  intros Hf. destruct a; simpl; try done; [|by right; left].
  unfold handleSave. destruct (trim (draft f)) as [|c k] eqn:Htrim; [done|].
  destruct (validateApiKey (c :: k)) eqn:Hvalid; simpl; [|done].
  right. right. split; [done|]. rewrite <- Htrim. apply trim_idem.
Qed.

(** X14: the key form never installs a key it has not validated: after
    any sequence of actions the page's key is the one found in the storage
    when the page loaded, or empty, or a key that starts with "AIza", has at
    least 35 code units and no white space at either end. *)
Theorem keyForm_key_valid saved actions :
  apiKey (foldl keyStep (mountKeyForm saved) actions) = default [] saved
  ∨ apiKey (foldl keyStep (mountKeyForm saved) actions) = []
  ∨ validateApiKey (apiKey (foldl keyStep (mountKeyForm saved) actions)) = true
    ∧ trim (apiKey (foldl keyStep (mountKeyForm saved) actions))
      = apiKey (foldl keyStep (mountKeyForm saved) actions).
Proof.
  apply (foldl_invariant
           (λ f, apiKey f = default [] saved ∨ apiKey f = []
                 ∨ validateApiKey (apiKey f) = true ∧ trim (apiKey f) = apiKey f)).
  - intros f a _. apply keyStep_valid.
  - left. by destruct saved as [[|c k]|].
Qed.

(** ** The mock provider *)

Section MockLaws.
Context {U : Unicode}.
Variable Date_now : N → N.

Lemma freshIds_snoc c0 found g (t : Token) g' :
  freshIds Date_now c0 (found, g) →
  id t = idOf Date_now (idCounter g + 1) → idCounter g' = (idCounter g + 1)%N →
  freshIds Date_now c0 (found ++ [t], g').
Proof.
  intros (ks & Hids & Hks & Hnd & Hc0) Hid Hc. cbn [fst snd] in *.
  exists (ks ++ [(idCounter g + 1)%N]). cbn [fst snd]. rewrite !fmap_app, Hids, Hc. simpl.
  rewrite Hid. split; [done|]. split; [|split; [|lia]].
  - apply Forall_app. split; [|constructor; [lia | constructor]].
    eapply Forall_impl; [exact Hks|]. intros k Hk. simpl in Hk. lia.
  - apply NoDup_app. split; [done|]. split; [|apply NoDup_singleton].
    intros k Hk ->%list_elem_of_singleton. rewrite Forall_forall in Hks.
    apply Hks in Hk. lia.
Qed.

Lemma mockToken_spec tokens g txt :
  ∃ t g',
    mockToken Date_now (tokens, g) txt = (tokens ++ [t], g')
    ∧ id t = idOf Date_now (idCounter g + 1) ∧ text t = txt
    ∧ idCounter g' = (idCounter g + 1)%N.
Proof.
  unfold mockToken. rewrite uid_idOf.
  pose proof (inferRole_idCounter
                {| idCounter := idCounter g + 1; keywordLastIndex := keywordLastIndex g |}
                txt) as Hc.
  destruct (inferRole _ txt) as [r g2]. eexists _, _. split; [done|]. by repeat split.
Qed.

Lemma padToken_spec tokens g :
  ∃ t g',
    padToken Date_now (tokens, g) = (tokens ++ [t], g')
    ∧ id t = idOf Date_now (idCounter g + 1)
    ∧ text t = default [] (syntheticTerms !! (length tokens `mod` length syntheticTerms))
    ∧ idCounter g' = (idCounter g + 1)%N.
Proof.
  unfold padToken. rewrite uid_idOf.
  set (term := default [] (syntheticTerms !! (length tokens `mod` length syntheticTerms))).
  pose proof (inferRole_idCounter
                {| idCounter := idCounter g + 1; keywordLastIndex := keywordLastIndex g |}
                term) as Hc.
  destruct (inferRole _ term) as [r g2]. eexists _, _. split; [done|]. by repeat split.
Qed.

Lemma mock_loop candidates : ∀ c0 st,
  freshIds Date_now c0 st →
  text <$> (foldl (mockToken Date_now) st candidates).1 = (text <$> st.1) ++ candidates
  ∧ freshIds Date_now c0 (foldl (mockToken Date_now) st candidates).
Proof.
  induction candidates as [|txt candidates IH]; intros c0 [tokens g] Hfresh; cbn [foldl].
  { by rewrite app_nil_r. }
  destruct (mockToken_spec tokens g txt) as (t & g' & -> & Hid & Htext & Hc).
  destruct (IH c0 (tokens ++ [t], g')) as [-> Hfresh']; [by eapply freshIds_snoc|].
  split; [|done]. cbn [fst]. by rewrite fmap_app, <- app_assoc, <- Htext.
Qed.

Lemma padTokens_spec fuel : ∀ c0 st,
  8 - length st.1 ≤ fuel → freshIds Date_now c0 st →
  text <$> (padTokens Date_now fuel st).1
  = (text <$> st.1)
    ++ ((λ k, default [] (syntheticTerms !! (k `mod` length syntheticTerms)))
          <$> seq (length st.1) (8 - length st.1))
  ∧ freshIds Date_now c0 (padTokens Date_now fuel st).
Proof.
  induction fuel as [|fuel IH]; intros c0 [tokens g] Hfuel Hfresh; cbn [padTokens fst] in *.
  - destruct (Nat.ltb_spec (length tokens) 8); [lia|].
    replace (8 - length tokens) with 0 by lia. by rewrite app_nil_r.
  - destruct (Nat.ltb_spec (length tokens) 8) as [Hlt | Hge].
    + destruct (padToken_spec tokens g) as (t & g' & -> & Hid & Htext & Hc).
      destruct (IH c0 (tokens ++ [t], g')) as [-> Hfresh'].
      { cbn [fst]. rewrite length_app. simpl. lia. }
      { by eapply freshIds_snoc. }
      split; [|done]. cbn [fst]. rewrite fmap_app, <- app_assoc, length_app.
      cbn [length fmap list_fmap app].
      replace (8 - length tokens) with (S (8 - (length tokens + 1))) by lia.
      cbn [seq]. rewrite fmap_cons, <- Htext. by rewrite Nat.add_1_r.
    + replace (8 - length tokens) with 0 by lia. by rewrite app_nil_r.
Qed.

(** X15: the mock provider answers with the terms of its table that
    the lower-cased prompt contains, in the order of the table, padded up to
    eight tokens with the synthetic terms picked by position; the padding
    loop ends by its own test, so there are eight or nine tokens (the cut
    at twelve never applies), and their ids are pairwise distinct. *)
Theorem mockAlternatives_tokens g prompt :
  text <$> (mockAlternatives Date_now g prompt).1
  = filter (λ term, includes (toLowerCase prompt) (toLowerCase term) = true) mockTerms
    ++ ((λ k, default [] (syntheticTerms !! (k `mod` length syntheticTerms)))
          <$> seq (length (filter (λ term, includes (toLowerCase prompt) (toLowerCase term)
                                           = true) mockTerms))
                (8 - length (filter (λ term, includes (toLowerCase prompt)
                                               (toLowerCase term) = true) mockTerms)))
  ∧ 8 ≤ length (mockAlternatives Date_now g prompt).1 ≤ 9
  ∧ NoDup (id <$> (mockAlternatives Date_now g prompt).1).
Proof.
  unfold mockAlternatives.
  set (candidates := filter _ mockTerms).
  assert (length candidates ≤ 9) as Hlen by apply (length_filter _ mockTerms).
  assert (freshIds Date_now (idCounter g) ([], g)) as Hinit.
  { exists []. cbn [fst snd]. split; [done|]. split; [constructor|].
    split; [constructor | done]. }
  destruct (mock_loop candidates _ _ Hinit) as [Htexts Hfresh].
  cbn [fst fmap list_fmap app] in Htexts.
  assert (length (foldl (mockToken Date_now) ([], g) candidates).1 = length candidates)
    as Hlen1 by (by rewrite <- (length_fmap text), Htexts).
  destruct (padTokens_spec 8 _ _ ltac:(lia) Hfresh) as [Hpad Hfresh'].
  rewrite Htexts, Hlen1 in Hpad.
  set (st := padTokens Date_now 8 _) in *. cbn [fst].
  assert (length st.1 = length candidates + (8 - length candidates)) as Hlen2.
  { by rewrite <- (length_fmap text), Hpad, length_app, length_fmap, length_seq. }
  rewrite take_ge by lia. split; [done|]. split; [lia|].
  by apply (freshIds_NoDup _ _ _ Hfresh').
Qed.

End MockLaws.

(** ** The fallback extractor of the later revision *)

Section LaterFallback.
Context {U : Unicode}.
Variable Date_now : N → N.

Lemma later_inferRole_idCounter g txt :
  idCounter (Revision2.inferRole g txt).2 = idCounter g.
Proof.
  unfold Revision2.inferRole.
  destruct (Revision2.testKeywordRoles _ _ _) as [[r|] li]; [done|].
  by repeat destruct (_ || _); repeat destruct (RegExp_test _ _).
Qed.

Lemma laterFound_snoc lowered c0 found g (t : Revision2.Token) g' :
  laterFound Date_now lowered c0 (found, g) →
  Revision2.id t = idOf Date_now (idCounter g + 1) →
  idCounter g' = (idCounter g + 1)%N →
  includes lowered (Revision2.text t) = true →
  (lowerAscii lowered = true → Revision2.text t ∉ Revision2.text <$> found) →
  laterFound Date_now lowered c0 (found ++ [t], g').
Proof.
  intros ((ks & Hids & Hks & Hnd & Hc0) & Hinc & Htexts) Hid Hc Ht Hnew.
  cbn [fst snd] in *. split; [|split].
  - exists (ks ++ [(idCounter g + 1)%N]). cbn [fst snd].
    rewrite !fmap_app, Hids, Hc. simpl. rewrite Hid. split; [done|].
    split; [|split; [|lia]].
    + apply Forall_app. split; [|constructor; [lia | constructor]].
      eapply Forall_impl; [exact Hks|]. intros k Hk. simpl in Hk. lia.
    + apply NoDup_app. split; [done|]. split; [|apply NoDup_singleton].
      intros k Hk ->%list_elem_of_singleton. rewrite Forall_forall in Hks.
      apply Hks in Hk. lia.
  - cbn [fst]. apply Forall_app. split; [done | by apply Forall_singleton].
  - intros Hlow. cbn [fst]. rewrite fmap_app. apply NoDup_app.
    split; [by apply Htexts|]. split; [|apply NoDup_singleton].
    intros x Hx ->%list_elem_of_singleton. by apply Hnew.
Qed.

Lemma pushTerm_found lowered c0 r st term :
  laterFound Date_now lowered c0 st →
  laterFound Date_now lowered c0 (Revision2.pushTerm Date_now r lowered st term).
Proof.
  destruct st as [found g]. intros Hst. unfold Revision2.pushTerm.
  destruct (includes lowered term) eqn:Hinc; [|done]. cbn [andb].
  destruct (existsb _ found) eqn:Hex; [done|]. cbn [negb]. rewrite uid_idOf.
  eapply laterFound_snoc; [done | done | done | done |].
  intros _ (t & Ht & Hin)%list_elem_of_fmap. cbn [Revision2.text] in Ht.
  assert (existsb (λ t, bool_decide (Revision2.text t = term)) found = true) as Hex';
    [|congruence].
  apply existsb_exists. exists t. split; [by apply list_elem_of_In|].
  by apply bool_decide_eq_true.
Qed.

Lemma pushWord_found lowered c0 st word :
  includes lowered word = true →
  laterFound Date_now lowered c0 st →
  laterFound Date_now lowered c0 (Revision2.pushWord Date_now st word).
Proof.
  destruct st as [found g]. intros Hword Hst. unfold Revision2.pushWord.
  destruct (existsb _ found) eqn:Hex; [done|]. cbn [negb andb].
  destruct (length found <? 12); [|done].
  pose proof (later_inferRole_idCounter g word) as Hc.
  destruct (Revision2.inferRole g word) as [r g1]. cbn [snd] in Hc. rewrite uid_idOf.
  eapply laterFound_snoc; [done | by cbn; rewrite Hc | by cbn; rewrite Hc | done |].
  intros Hlow (t & Ht & Hin)%list_elem_of_fmap. cbn [Revision2.text] in Ht.
  assert (existsb (λ token, includes (toLowerCase (Revision2.text token)) word) found = true)
    as Hex'; [|congruence].
  apply existsb_exists. exists t. split; [by apply list_elem_of_In|].
  destruct Hst as (_ & Hinc & _). cbn [fst] in Hinc. rewrite Forall_forall in Hinc.
  apply Hinc, includes_infix in Hin as (pre & post & Heq).
  rewrite lowerAscii_toLowerCase by (by eapply lowerAscii_infix).
  rewrite <- Ht. apply includes_refl.
Qed.

Lemma later_extractFallbackTokens_found g prompt :
  ∃ found g',
    Revision2.extractFallbackTokens Date_now g prompt = (take 15 found, g')
    ∧ laterFound Date_now (toLowerCase prompt) (idCounter g) (found, g').
Proof.
  unfold Revision2.extractFallbackTokens.
  match goal with
  | |- context [foldl ?f2 (foldl ?f1 ([], g) ?l1) ?l2] =>
      assert (laterFound Date_now (toLowerCase prompt) (idCounter g)
                (foldl f2 (foldl f1 ([], g) l1) l2)) as Hfound
  end.
  { apply foldl_invariant.
    - intros st word Hword Hst. apply pushWord_found; [|done].
      apply list_elem_of_filter in Hword as [_ Hword].
      apply splitWhiteSpace_infix in Hword as (pre & post & Heq); [|done].
      apply includes_infix. by exists pre, post.
    - apply foldl_invariant.
      + intros st entry _ Hst. apply foldl_invariant; [|done].
        intros st' term _ Hst'. by apply pushTerm_found.
      + split; [|split; [constructor | intros _; constructor]].
        exists []. cbn [fst snd]. split; [done|]. split; [constructor|].
        split; [constructor | done]. }
  destruct (foldl _ (foldl _ ([], g) _) _) as [found g']. by exists found, g'.
Qed.

(** X16: the later extractor returns at most fifteen tokens, with
    pairwise distinct ids, and the text of each is contained in the
    lower-cased prompt. *)
Theorem later_extractFallbackTokens_tokens g prompt :
  length (Revision2.extractFallbackTokens Date_now g prompt).1 ≤ 15
  ∧ NoDup (Revision2.id <$> (Revision2.extractFallbackTokens Date_now g prompt).1)
  ∧ ∀ t, t ∈ (Revision2.extractFallbackTokens Date_now g prompt).1 →
         includes (toLowerCase prompt) (Revision2.text t) = true.
Proof.
  destruct (later_extractFallbackTokens_found g prompt)
    as (found & g' & -> & (ks & Hids & _ & Hnd & _) & Hinc & _).
  cbn [fst snd] in *. split; [rewrite length_take; lia|]. split.
  - rewrite fmap_take, Hids. eapply sublist_NoDup; [|apply sublist_take].
    apply NoDup_fmap_2; [|done]. intros n m. apply idOf_inj.
  - intros t Ht. rewrite Forall_forall in Hinc. apply Hinc.
    apply elem_of_take in Ht as (k & Hk & _). by eapply list_elem_of_lookup_2.
Qed.

(** X17: on an ASCII prompt the tokens of the later extractor have
    pairwise distinct texts without upper-case letters; so the vocabulary
    terms spelled with capitals, "3D render" and "CGI", never give a
    token. *)
Theorem later_extractFallbackTokens_lower_case g prompt :
  forallb is_ascii prompt = true →
  NoDup (Revision2.text <$> (Revision2.extractFallbackTokens Date_now g prompt).1)
  ∧ (∀ t, t ∈ (Revision2.extractFallbackTokens Date_now g prompt).1 →
          lowerAscii (Revision2.text t) = true)
  ∧ (str "3D render"
     ∉ Revision2.text <$> (Revision2.extractFallbackTokens Date_now g prompt).1)
  ∧ (str "CGI" ∉ Revision2.text <$> (Revision2.extractFallbackTokens Date_now g prompt).1).
Proof.
  intros Hascii%toLowerCase_lowerAscii.
  destruct (later_extractFallbackTokens_found g prompt)
    as (found & g' & -> & _ & Hinc & Hnd).
  cbn [fst snd] in *.
  assert (∀ t, t ∈ take 15 found → lowerAscii (Revision2.text t) = true) as Hlow.
  { intros t Ht. rewrite Forall_forall in Hinc.
    apply elem_of_take in Ht as (k & Hk & _). apply list_elem_of_lookup_2 in Hk.
    apply Hinc, includes_infix in Hk as (pre & post & Heq). by eapply lowerAscii_infix. }
  split; [|split; [done|]].
  - rewrite fmap_take. eapply sublist_NoDup; [by apply Hnd | apply sublist_take].
  - split; intros (t & Ht & Hin%Hlow)%list_elem_of_fmap; rewrite <- Ht in Hin;
      by vm_compute in Hin.
Qed.

End LaterFallback.

Lemma later_extractFallbackTokens_lower_case_witness :
  forallb is_ascii studioPrompt = true
  ∧ Revision2.text <$> studioTokens = [str "portrait"; str "studio"]
  ∧ NoDup (Revision2.text <$> studioTokens)
  ∧ (∀ t, t ∈ studioTokens → lowerAscii (Revision2.text t) = true)
  ∧ (str "3D render" ∉ Revision2.text <$> studioTokens)
  ∧ (str "CGI" ∉ Revision2.text <$> studioTokens).
Proof.
  split; [reflexivity|]. split; [by vm_compute|].
  exact (later_extractFallbackTokens_lower_case (U := plain_unicode) (λ _, 1700000000000%N)
           Revision2.initialGlobals studioPrompt eq_refl).
Defined.

(** ** Shape of the segment list *)

Section Shape.
Context {U : Unicode}.

Lemma emitFrom_no_adjacent_text raw pls : ∀ cur k v w,
  emitFrom raw cur pls !! k = Some (SegText v) →
  emitFrom raw cur pls !! S k = Some (SegText w) → False.
Proof.
  induction pls as [|p pls IH]; intros cur k v w; cbn [emitFrom].
  - destruct (cur <? length raw); [|done]. by destruct k.
  - destruct (cur <? start p); cbn [app].
    + destruct k as [|[|k]]; [done | done |]. apply IH.
    + destruct k as [|k]; [done|]. apply IH.
Qed.

(** X18: two text segments are never neighbours: in the result of
    [segmentPrompt] the segment that follows a text segment is a token
    segment. *)
Theorem segmentPrompt_text_then_token raw ts k v seg :
  segmentPrompt raw ts !! k = Some (SegText v) →
  segmentPrompt raw ts !! S k = Some seg →
  ∃ i, seg = SegToken i.
Proof.
  intros Hk HSk. destruct seg as [w|i]; [exfalso | by exists i].
  revert Hk HSk. destruct raw as [|c raw']; [done|].
  destruct ts as [|t ts']; [by destruct k|].
  rewrite segmentPrompt_emit by done. apply emitFrom_no_adjacent_text.
Qed.

End Shape.

Lemma segmentPrompt_text_then_token_witness :
  segmentPrompt (U := plain_unicode) (str "a blue sky") blueSkyTokens !! 0
  = Some (SegText (str "a "))
  ∧ segmentPrompt (U := plain_unicode) (str "a blue sky") blueSkyTokens !! 1
    = Some (SegToken (str "t1"))
  ∧ ∃ i, SegToken (str "t1") = SegToken i.
Proof.
  split; [reflexivity|]. split; [reflexivity|].
  exact (segmentPrompt_text_then_token (U := plain_unicode) (str "a blue sky") blueSkyTokens
           0 (str "a ") (SegToken (str "t1")) eq_refl eq_refl).
Defined.
